(** * Traversal of tree-sitter syntax trees: [traverse] and its two walkers

    A shallow embedding of [traverse], [traverse_tree_depth_first] and
    [traverse_tree_breadth_first] of [main.py], together with the part of the
    Python run time they rely on: generator objects that are pulled one
    element at a time, [yield from], exceptions, and [collections.deque]
    objects living in a store and reached through references.

    The interpreter's bound on the depth of the call stack is not modelled. *)

From stdpp Require Import gmap strings list fin_maps sorting.
From Stdlib Require Import Permutation.

Set Default Proof Using "Type".

(** ** Syntax trees *)

(** A [tree_sitter.Node]: the engine reads nothing but the ordered children.
    The payload stands for whatever else a node carries (type, byte range,
    id). *)
Unset Elimination Schemes.
Inductive Node (A : Type) : Type :=
  MkNode (payload : A) (children : list (Node A)).
Set Elimination Schemes.
Arguments MkNode {A} payload children.

Definition payload {A} (n : Node A) : A :=
  match n with MkNode a _ => a end.

Definition children {A} (n : Node A) : list (Node A) :=
  match n with MkNode _ cs => cs end.

Section node_induction.
Context {A : Type} (P : Node A → Prop).
Hypothesis step : ∀ a cs, Forall P cs → P (MkNode a cs).

Fixpoint Node_ind (n : Node A) : P n :=
  match n with
  | MkNode a cs =>
      step a cs
        ((fix all (l : list (Node A)) : Forall P l :=
            match l with
            | [] => @List.Forall_nil _ P
            | c :: l' => @List.Forall_cons _ P c l' (Node_ind c) (all l')
            end) cs)
  end.
End node_induction.

(** A [tree_sitter.TreeCursor].  The code only ever creates a cursor with
    [walk()] and reads its [node] at once, so the cursor is the node it was
    created on. *)
Definition TreeCursor (A : Type) : Type := Node A.
Definition node {A} (cursor : TreeCursor A) : Node A := cursor.

(** A [tree_sitter.Tree]. *)
Record Tree (A : Type) : Type := MkTree { root_node : Node A }.
Arguments MkTree {A} root_node.
Arguments root_node {A} _.

(** [Tree.walk()] and [Node.walk()]. *)
Definition tree_walk {A} (ast : Tree A) : TreeCursor A := root_node ast.
Definition walk {A} (n : Node A) : TreeCursor A := n.

(** ** Generators *)

(** References to deque objects. *)
Abbreviation loc := nat (only parsing).

Inductive exn : Type :=
| ValueError (msg : string)
| IndexError.

(** The body of a generator function, as the tree of the operations it can
    still perform.  A generator object that is suspended is such a body: what
    is left to run. *)
Inductive Gen (A R : Type) : Type :=
| Ret (r : R)
| Yield (n : Node A) (k : Gen A R)
| Raise (e : exn)
| OutOfFuel
| NewDeque (init : list (Node A)) (k : loc → Gen A R)
| Len (q : loc) (k : nat → Gen A R)
| PopLeft (q : loc) (k : Node A → Gen A R)
| Extend (q : loc) (xs : list (Node A)) (k : Gen A R).
Arguments Ret {A R} r.
Arguments Yield {A R} n k.
Arguments Raise {A R} e.
Arguments OutOfFuel {A R}.
Arguments NewDeque {A R} init k.
Arguments Len {A R} q k.
Arguments PopLeft {A R} q k.
Arguments Extend {A R} q xs k.

(** Sequencing: run [m], then [f] on what it returned. *)
Fixpoint bind {A R S} (m : Gen A R) (f : R → Gen A S) : Gen A S :=
  match m with
  | Ret r => f r
  | Yield n k => Yield n (bind k f)
  | Raise e => Raise e
  | OutOfFuel => OutOfFuel
  | NewDeque init k => NewDeque init (λ l, bind (k l) f)
  | Len q k => Len q (λ n, bind (k n) f)
  | PopLeft q k => PopLeft q (λ x, bind (k x) f)
  | Extend q xs k => Extend q xs (bind k f)
  end.

Declare Scope gen_scope.
Delimit Scope gen_scope with gen.
Bind Scope gen_scope with Gen.
Notation "x <- m ;; k" := (bind m (λ x, k))
  (at level 100, m at next level, k at level 200, right associativity) : gen_scope.
Notation "m ;; k" := (bind m (λ _, k))
  (at level 100, k at level 200, right associativity) : gen_scope.

(** The store of deque objects: the contents of each, front first. *)
Abbreviation heap A := (gmap loc (list (Node A))).

Section generators.
Context {A : Type}.

(** The statements of the source. *)
Definition yield (n : Node A) : Gen A unit := Yield n (Ret tt).
Definition yield_from (g : Gen A unit) : Gen A unit := g.
Definition raise (e : exn) : Gen A unit := Raise e.
Definition deque (init : list (Node A)) : Gen A loc := NewDeque init Ret.
Definition len (q : loc) : Gen A nat := Len q Ret.
Definition popleft (q : loc) : Gen A (Node A) := PopLeft q Ret.
Definition extend (q : loc) (xs : list (Node A)) : Gen A unit := Extend q xs (Ret tt).

(** [for x in xs: body x] *)
Definition for_each (body : Node A → Gen A unit) : list (Node A) → Gen A unit :=
  fix loop xs :=
    match xs with
    | [] => Ret tt
    | x :: xs' => (body x ;; loop xs')%gen
    end.

(** [for _ in range(n): body] *)
Fixpoint for_range (n : nat) (body : Gen A unit) : Gen A unit :=
  match n with
  | 0 => Ret tt
  | S n' => (body ;; for_range n' body)%gen
  end.

(** [traverse_tree_depth_first], lines 77-89. *)
Fixpoint traverse_tree_depth_first (cursor : TreeCursor A) : Gen A unit :=
  for_each
    (λ child,
      yield child ;;
      yield_from (traverse_tree_depth_first (walk child)))%gen
    (children (node cursor)).

(** [traverse_tree_breadth_first], lines 92-111.  The function calls itself
    with the same deque until the deque is empty; [fuel] bounds the depth of
    these calls, and running out of it is the outcome [OutOfFuel]. *)
Fixpoint traverse_tree_breadth_first
    (fuel : nat) (cursor : TreeCursor A) (q : option loc) : Gen A unit :=
  match fuel with
  | 0 => OutOfFuel
  | S fuel' =>
      (q <- match q with
            | None => deque (children (node cursor))
            | Some q => Ret q
            end ;;
       n <- len q ;;
       for_range n
         (node_ <- popleft q ;;
          extend q (children (node (walk node_))) ;;
          yield node_) ;;
       n' <- len q ;;
       if Nat.eqb n' 0 then Ret tt
       else yield_from (traverse_tree_breadth_first fuel' cursor (Some q)))%gen
  end.

(** What is left of a call of [traverse_tree_breadth_first] that has [k]
    rounds of its loop still to go: these rounds, then lines 109-111. *)
Definition breadth_first_rest
    (fuel : nat) (cursor : TreeCursor A) (q : loc) (k : nat) : Gen A unit :=
  (for_range k
     (node_ <- popleft q ;;
      extend q (children (node (walk node_))) ;;
      yield node_) ;;
   n' <- len q ;;
   if Nat.eqb n' 0 then Ret tt
   else yield_from (traverse_tree_breadth_first fuel cursor (Some q)))%gen.

(** [traverse], lines 56-74. *)
Definition traverse (fuel : nat) (ast : Tree A) (method : option string) : Gen A unit :=
  let cursor := tree_walk ast in
  let method := match method with None => "depth_first" | Some m => m end in
  if String.eqb method "breadth_first" then
    yield_from (traverse_tree_breadth_first fuel cursor None)
  else if String.eqb method "depth_first" then
    yield_from (traverse_tree_depth_first cursor)
  else
    raise (ValueError ("Value for argument 'method' " +:+ method +:+ " not supported.")).

(** *** Running a generator *)

(** How a generator ends.  [Done] is the normal end ([StopIteration] for
    the one who pulls); [Exhausted] and [Dangling] belong to the model: the
    fuel ran out, or a reference pointed to no deque. *)
Inductive outcome : Type :=
| Done
| Raised (e : exn)
| Exhausted
| Dangling.

(** What one pull gives: the next node, or the end. *)
Inductive pulled : Type :=
| Item (n : Node A)
| Stop (o : outcome).

(** [next(g)]: run the generator up to its next [yield].  A generator that
    has ended stays ended. *)
Fixpoint next (h : heap A) (g : Gen A unit) : heap A * Gen A unit * pulled :=
  match g with
  | Ret _ => (h, Ret tt, Stop Done)
  | Yield n k => (h, k, Item n)
  | Raise e => (h, Ret tt, Stop (Raised e))
  | OutOfFuel => (h, Ret tt, Stop Exhausted)
  | NewDeque init k =>
      let l := fresh (dom h) in next (<[l := init]> h) (k l)
  | Len q k =>
      match h !! q with
      | Some d => next h (k (length d))
      | None => (h, Ret tt, Stop Dangling)
      end
  | PopLeft q k =>
      match h !! q with
      | Some (x :: d) => next (<[q := d]> h) (k x)
      | Some [] => (h, Ret tt, Stop (Raised IndexError))
      | None => (h, Ret tt, Stop Dangling)
      end
  | Extend q xs k =>
      match h !! q with
      | Some d => next (<[q := d ++ xs]> h) k
      | None => (h, Ret tt, Stop Dangling)
      end
  end.

(** [list(g)], or a [for] loop over [g] that runs to the end: every node
    the generator yields, and how it ended. *)
Fixpoint consume (h : heap A) (g : Gen A unit) : heap A * list (Node A) * outcome :=
  match g with
  | Ret _ => (h, [], Done)
  | Yield n k => let '(h', out, o) := consume h k in (h', n :: out, o)
  | Raise e => (h, [], Raised e)
  | OutOfFuel => (h, [], Exhausted)
  | NewDeque init k =>
      let l := fresh (dom h) in consume (<[l := init]> h) (k l)
  | Len q k =>
      match h !! q with
      | Some d => consume h (k (length d))
      | None => (h, [], Dangling)
      end
  | PopLeft q k =>
      match h !! q with
      | Some (x :: d) => consume (<[q := d]> h) (k x)
      | Some [] => (h, [], Raised IndexError)
      | None => (h, [], Dangling)
      end
  | Extend q xs k =>
      match h !! q with
      | Some d => consume (<[q := d ++ xs]> h) k
      | None => (h, [], Dangling)
      end
  end.

Definition nodes_of (r : heap A * list (Node A) * outcome) : list (Node A) := r.1.2.
Definition ending_of (r : heap A * list (Node A) * outcome) : outcome := r.2.
Definition store_of (r : heap A * list (Node A) * outcome) : heap A := r.1.1.

(** [n] pulls in a row from one generator: what each pull gave. *)
Fixpoint pulls (n : nat) (h : heap A) (g : Gen A unit) : list pulled :=
  match n with
  | 0 => []
  | S n' => let '(h', g', r) := next h g in r :: pulls n' h' g'
  end.

(** Two generators living in the same store, pulled in the order of the
    schedule [s]: [true] pulls the first, [false] the second.  The result
    is what each of the two has given. *)
Fixpoint interleave (s : list bool) (h : heap A) (g1 g2 : Gen A unit)
    : list pulled * list pulled :=
  match s with
  | [] => ([], [])
  | true :: s' =>
      let '(h', g1', r) := next h g1 in
      let '(o1, o2) := interleave s' h' g1' g2 in (r :: o1, o2)
  | false :: s' =>
      let '(h', g2', r) := next h g2 in
      let '(o1, o2) := interleave s' h' g1 g2' in (o1, r :: o2)
  end.

(** How a call ends: with a value, or with an exception. *)
Inductive completion (V : Type) : Type :=
| Returned (v : V)
| Threw (e : exn).

(** The call [traverse(ast, method)] itself.  [traverse] has [yield] in its
    body, so it is a generator function: the call binds the arguments and
    returns the generator object, and no statement of the body, not even
    line 67, runs before the first pull. *)
Definition call_traverse (fuel : nat) (ast : Tree A) (method : option string)
    : completion (Gen A unit) :=
  Returned _ (traverse fuel ast method).
End generators.

Arguments completion : clear implicits.
Arguments Returned {V} v.
Arguments Threw {V} e.

Arguments outcome : clear implicits.
Arguments pulled A : clear implicits.

(** The number of turns of the schedule [s] that go to side [b]. *)
Fixpoint turns (b : bool) (s : list bool) : nat :=
  match s with
  | [] => 0
  | b' :: s' => (if Bool.eqb b b' then 1 else 0) + turns b s'
  end.

(** *** Generators side by side *)

Section side_by_side.
Context {A : Type}.

(** A generator that will never touch the store. *)
Inductive heap_free : Gen A unit → Prop :=
| hf_ret r : heap_free (Ret r)
| hf_yield n k : heap_free k → heap_free (Yield n k)
| hf_raise e : heap_free (Raise e)
| hf_out_of_fuel : heap_free OutOfFuel.

(** [same_run hs gs h g o]: the generator [gs] in the store [hs] and the
    generator [g] in the store [h] are at the same point of the same
    traversal; [o] is the deque that [g] owns in [h], if it has one. *)
Inductive same_run : heap A → Gen A unit → heap A → Gen A unit → option loc → Prop :=
| same_free hs h g :
    heap_free g → same_run hs g h g None
| same_new hs h fuel cursor :
    same_run hs (traverse_tree_breadth_first fuel cursor None)
             h (traverse_tree_breadth_first fuel cursor None) None
| same_rest hs h fuel cursor qs q k d :
    hs !! qs = Some d → h !! q = Some d →
    same_run hs (breadth_first_rest fuel cursor qs k)
             h (breadth_first_rest fuel cursor q k) (Some q).
End side_by_side.

(** ** What the walkers are meant to enumerate

    The definitions below follow the words of the specification, not the
    code: pre-order, level order, the number of descendants. *)

Section orders.
Context {A : Type}.

(** Pre-order below a node: each child, followed at once by everything
    below it, before the next sibling. *)
Fixpoint preorder (n : Node A) : list (Node A) :=
  match n with
  | MkNode _ cs => flat_map (λ c, c :: preorder c) cs
  end.

(** The nodes [d] levels below [n], from left to right. *)
Fixpoint nodes_at_depth (d : nat) (n : Node A) : list (Node A) :=
  match d with
  | 0 => [n]
  | S d' => flat_map (nodes_at_depth d') (children n)
  end.

(** The number of levels below a node. *)
Fixpoint height (n : Node A) : nat :=
  match n with
  | MkNode _ cs => list_max (map (λ c, S (height c)) cs)
  end.

(** Level order below a node: depth 1, then depth 2, and so on. *)
Definition level_order (n : Node A) : list (Node A) :=
  flat_map (λ d, nodes_at_depth d n) (seq 1 (height n)).

(** The number of nodes strictly below a node. *)
Fixpoint totalDescendantCount (n : Node A) : nat :=
  match n with
  | MkNode _ cs => list_sum (map (λ c, S (totalDescendantCount c)) cs)
  end.

(** [strict_descendant n x]: [x] is a child of [n], or of a node below. *)
Inductive strict_descendant (n : Node A) : Node A → Prop :=
| sd_child x : In x (children n) → strict_descendant n x
| sd_deeper c x : In c (children n) → strict_descendant c x → strict_descendant n x.

(** The waves of a queue: its content, then the children of its content,
    and so on, for [H] rounds. *)
Fixpoint levels_from (H : nat) (q : list (Node A)) : list (Node A) :=
  match H with
  | 0 => []
  | S H' => q ++ levels_from H' (flat_map children q)
  end.

(** The node at a position: a position is the path of child indices from
    the root. *)
Fixpoint subtree_at (n : Node A) (p : list nat) : option (Node A) :=
  match p with
  | [] => Some n
  | i :: p' =>
      match children n !! i with
      | Some c => subtree_at c p'
      | None => None
      end
  end.

(** The order each strategy is meant to give. *)
Definition expected_order (method : string) (n : Node A) : list (Node A) :=
  if String.eqb method "breadth_first" then level_order n else preorder n.

(** A tree without branching: the payloads of a path, from the top. *)
Fixpoint chain (a : A) (below : list A) : Node A :=
  match below with
  | [] => MkNode a []
  | b :: below' => MkNode a [chain b below']
  end.

(** The nodes of a chain below its top, from the top down. *)
Fixpoint chain_below (below : list A) : list (Node A) :=
  match below with
  | [] => []
  | b :: below' => chain b below' :: chain_below below'
  end.
End orders.

(** The two strategies [traverse] accepts. *)
Definition valid_method (method : string) : Prop :=
  method = "depth_first" ∨ method = "breadth_first".

(** [l] lists exactly the elements that satisfy [P], each of them once. *)
Definition each_once {X} (P : X → Prop) (l : list X) : Prop :=
  NoDup l ∧ ∀ x, P x ↔ In x l.

(** *** Nodes tagged with their position *)

(** [map] with the index of each element, counted from [i]. *)
Definition map_from {X Y} (f : nat → X → Y) : nat → list X → list Y :=
  fix go i l :=
    match l with
    | [] => []
    | x :: l' => f i x :: go (S i) l'
    end.

(** [label_from p n]: the tree [n], sitting at position [p], with every node
    tagged with its own position. *)
Fixpoint label_from {A} (p : list nat) (n : Node A) : Node (list nat * A) :=
  match n with
  | MkNode a cs => MkNode (p, a) (map_from (λ i c, label_from (p ++ [i]) c) 0 cs)
  end.

(** The tree with every node tagged with its position; the root is at []. *)
Definition label {A} (ast : Tree A) : Tree (list nat * A) :=
  MkTree (label_from [] (root_node ast)).

(** The same tree with other payloads. *)
Fixpoint node_map {A B} (f : A → B) (n : Node A) : Node B :=
  match n with
  | MkNode a cs => MkNode (f a) (map (node_map f) cs)
  end.

(** The position a tagged node carries, and the node without its tags. *)
Definition position {A} (n : Node (list nat * A)) : list nat := fst (payload n).
Definition erase {A} (n : Node (list nat * A)) : Node A := node_map snd n.

(** ** Examples *)

(** The tree of the specification: a root with the children A and B, where A
    has the child A1. *)
Definition leaf {A} (a : A) : Node A := MkNode a [].
Definition ex_A1 : Node string := leaf "A1".
Definition ex_A : Node string := MkNode "A" [ex_A1].
Definition ex_B : Node string := leaf "B".
Definition ex_tree : Tree string := MkTree (MkNode "root" [ex_A; ex_B]).

(** The chain root, X, Y, Z. *)
Definition ex_chain : Tree string := MkTree (chain "root" ["X"; "Y"; "Z"]).

(** A root without children. *)
Definition ex_empty : Tree string := MkTree (leaf "root").

(** ** Orders on positions, and traversals stopped half way *)

(** Document order: a node comes before everything below it, and before its
    later siblings and everything below them. *)
Fixpoint path_ltb (p q : list nat) : bool :=
  match p, q with
  | _, [] => false
  | [], _ :: _ => true
  | i :: p', j :: q' => (i <? j) || ((i =? j) && path_ltb p' q')
  end.

Definition path_lt (p q : list nat) : Prop := path_ltb p q = true.

(** By depth first, and in document order within one depth. *)
Definition shortlex_ltb (p q : list nat) : bool :=
  (length p <? length q) || ((length p =? length q) && path_ltb p q).

Definition shortlex_lt (p q : list nat) : Prop := shortlex_ltb p q = true.

(** [n] pulls in a row: the store and the generator they leave behind, with
    what each pull gave. *)
Fixpoint advance {A} (n : nat) (h : heap A) (g : Gen A unit)
    : heap A * Gen A unit * list (pulled A) :=
  match n with
  | 0 => (h, g, [])
  | S n' =>
      let '(h1, g1, r) := next h g in
      let '(h2, g2, rs) := advance n' h1 g1 in
      (h2, g2, r :: rs)
  end.

(** A tree in which, among the children of any node on the way down, only
    the last one may have children of its own. *)
Inductive right_spine {A} : Node A → Prop :=
| rs_leaf a : right_spine (MkNode a [])
| rs_last a leaves last :
    Forall (λ c, children c = []) leaves →
    right_spine last →
    right_spine (MkNode a (leaves ++ [last])).

(** ** Provisioning a parser: [build_language] and [get_parser]

    The two functions do nothing but call the world around them: the file
    system through [pathlib], [git], [loguru] and the [tree_sitter] library.
    They are embedded as programs that issue these calls one after the
    other; what each call answers, and whether it raises, is up to an
    environment that is left open. *)

(** What the code uses of [pathlib]: the directory of the module ([here],
    line 10), the operator [/] and [str()]. *)
Class PathLib (Path : Type) : Type := {
  here : Path;
  joinpath : Path → string → Path;
  path_str : Path → string;
}.

Notation "p </> name" := (joinpath p name) (at level 40, left associativity).

(** The calls to the outside, with their arguments. *)
Inductive call (Path : Type) : Type :=
| Mkdir (p : Path) (exist_ok : bool)
| Exists (p : Path)
| LoggerInfo (msg : string)
| CloneFrom (url : string) (to_path : Path)
| BuildLibrary (output_path : string) (repo_paths : list string)
| NewParser
| NewLanguage (path : Path) (name : string)
| SetLanguage (path : Path) (name : string).
Arguments Mkdir {Path} p exist_ok.
Arguments Exists {Path} p.
Arguments LoggerInfo {Path} msg.
Arguments CloneFrom {Path} url to_path.
Arguments BuildLibrary {Path} output_path repo_paths.
Arguments NewParser {Path}.
Arguments NewLanguage {Path} path name.
Arguments SetLanguage {Path} path name.

(** An exception raised by one of these calls. *)
Inductive external_error : Type :=
  ExternalError (description : string).

(** What a call comes back with: a value (the truth value of [exists()];
    for the other calls the value carries nothing), or an exception. *)
Inductive reply : Type :=
| Gives (b : bool)
| Raises (e : external_error).

(** The world: what it replies to a call, given the calls made before. *)
Definition environment (Path : Type) : Type := list (call Path) → call Path → reply.

(** A program that makes such calls and returns a value. *)
Inductive IO (Path R : Type) : Type :=
| Pure (r : R)
| Call (c : call Path) (k : bool → IO Path R).
Arguments Pure {Path R} r.
Arguments Call {Path R} c k.

Fixpoint io_bind {Path R S} (m : IO Path R) (f : R → IO Path S) : IO Path S :=
  match m with
  | Pure r => f r
  | Call c k => Call c (λ b, io_bind (k b) f)
  end.

Declare Scope io_scope.
Delimit Scope io_scope with io.
Bind Scope io_scope with IO.
Notation "x <- m ;; k" := (io_bind m (λ x, k))
  (at level 100, m at next level, k at level 200, right associativity) : io_scope.
Notation "m ;; k" := (io_bind m (λ _, k))
  (at level 100, k at level 200, right associativity) : io_scope.

Definition do_call {Path} (c : call Path) : IO Path bool := Call c Pure.

(** Running a program in an environment: the calls made, in order, and the
    value returned or the exception that ended the run.  The code has no
    [try]: an exception ends everything. *)
Fixpoint perform {Path R} (env : environment Path) (made : list (call Path))
    (p : IO Path R) : list (call Path) * (R + external_error) :=
  match p with
  | Pure r => (made, inl r)
  | Call c k =>
      match env made c with
      | Gives b => perform env (made ++ [c]) (k b)
      | Raises e => (made ++ [c], inr e)
      end
  end.

(** A [tree_sitter.Parser], with the language it was given: the library
    file and the name the [tree_sitter.Language] was made from. *)
Record Parser (Path : Type) : Type := MkParser {
  parser_language : option (Path * string);
}.
Arguments MkParser {Path} parser_language.
Arguments parser_language {Path} _.

Section provisioning.
Context {Path : Type} `{!PathLib Path}.

(** Lines 11 and 12. *)
Definition BUILD_DIR : Path := here </> "build".
Definition VENDOR_DIR : Path := here </> "vendor".

(** [build_language], lines 15-34. *)
Definition build_language (language : string) : IO Path Path :=
  let language_build_path := BUILD_DIR </> (language +:+ ".so") in
  (do_call (Mkdir BUILD_DIR true) ;;
   let language_repo := VENDOR_DIR </> ("tree-sitter-" +:+ language) in
   found <- do_call (Exists language_repo) ;;
   (if negb found then
      let language_repo_url :=
        "https://github.com/tree-sitter/tree-sitter-" +:+ language in
      do_call (LoggerInfo ("Cloning " +:+ language_repo_url)) ;;
      do_call (CloneFrom language_repo_url language_repo) ;;
      Pure tt
    else Pure tt) ;;
   do_call (LoggerInfo ("Building language '" +:+ language +:+ "'")) ;;
   do_call (BuildLibrary (path_str language_build_path) [path_str language_repo]) ;;
   Pure language_build_path)%io.

(** [get_parser], lines 37-53. *)
Definition get_parser (language : string) : IO Path (Parser Path) :=
  let language_build_path := BUILD_DIR </> (language +:+ ".so") in
  (found <- do_call (Exists language_build_path) ;;
   language_build_path <-
     (if negb found then
        do_call (LoggerInfo ("No build for language '" +:+ language +:+ "'")) ;;
        build_language language
      else Pure language_build_path) ;;
   do_call NewParser ;;
   do_call (NewLanguage language_build_path language) ;;
   do_call (SetLanguage language_build_path language) ;;
   Pure (MkParser (Some (language_build_path, language))))%io.
End provisioning.

(** Paths as plain strings, for the examples. *)
#[export] Instance string_paths : PathLib string := {|
  here := "/src";
  joinpath p name := p +:+ "/" +:+ name;
  path_str p := p;
|}.

(** A world in which everything asked for exists and nothing fails, and one
    in which nothing exists and nothing fails. *)
Definition all_there : environment string := λ _ _, Gives true.
Definition nothing_there : environment string := λ _ _, Gives false.

(** ** Facts about trees *)

Lemma flat_map_twice {X Y Z} (f : X → list Y) (g : Y → list Z) (l : list X) :
  flat_map g (flat_map f l) = flat_map (λ x, flat_map g (f x)) l.
Proof.
  induction l as [|x l IH]; simpl; [done|].
  by rewrite flat_map_app, IH.
Qed.

Lemma flat_map_singleton {X} (l : list X) : flat_map (λ x, [x]) l = l.
Proof. induction l as [|x l IH]; simpl; [done|]. by rewrite IH. Qed.

Lemma flat_map_seq_S {X} (f : nat → list X) (a len : nat) :
  flat_map f (seq (S a) len) = flat_map (λ k, f (S k)) (seq a len).
Proof.
  revert a. induction len as [|len IH]; intros a; simpl; [done|].
  by rewrite IH.
Qed.

Section tree_facts.
Context {A : Type}.
Implicit Types (n c x : Node A) (q d : list (Node A)).

Lemma height_child n c : In c (children n) → height c < height n.
Proof.
  destruct n as [a cs]; simpl. intros Hin.
  assert (Forall (λ k, k ≤ list_max (map (λ c, S (height c)) cs))
            (map (λ c, S (height c)) cs)) as HF
    by (apply list_max_le; lia).
  rewrite List.Forall_forall in HF.
  specialize (HF (S (height c)) (in_map _ _ _ Hin)). lia.
Qed.

Lemma height_children_bound n H :
  height n ≤ H → Forall (λ c, height c < H) (children n).
Proof.
  intros Hle. apply List.Forall_forall. intros c Hin.
  pose proof (height_child n c Hin). lia.
Qed.

Lemma height_flat_map_children d H :
  Forall (λ c, height c < S H) d →
  Forall (λ c, height c < H) (flat_map children d).
Proof.
  intros HF. apply List.Forall_forall. intros x Hx.
  apply in_flat_map in Hx as (c & Hc & Hx).
  rewrite List.Forall_forall in HF. specialize (HF c Hc).
  pose proof (height_child c x Hx). lia.
Qed.

Lemma levels_from_nil H : levels_from H ([] : list (Node A)) = [].
Proof. induction H as [|H IH]; simpl; [done|]. exact IH. Qed.

Lemma levels_from_depths H q :
  levels_from H q = flat_map (λ k, flat_map (nodes_at_depth k) q) (seq 0 H).
Proof.
  revert q. induction H as [|H IH]; intros q; [done|].
  simpl. rewrite flat_map_singleton. f_equal.
  rewrite IH, flat_map_seq_S.
  apply flat_map_ext. intros k. by rewrite flat_map_twice.
Qed.

Lemma level_order_levels n :
  level_order n = levels_from (height n) (children n).
Proof.
  unfold level_order. by rewrite levels_from_depths, flat_map_seq_S.
Qed.

Lemma preorder_unfold n :
  preorder n = flat_map (λ c, c :: preorder c) (children n).
Proof. by destruct n. Qed.

Lemma preorder_length n : length (preorder n) = totalDescendantCount n.
Proof.
  induction n as [a cs IH] using Node_ind. simpl.
  induction IH as [|c cs Hc _ IHcs]; simpl; [done|].
  rewrite length_app, IHcs, Hc. done.
Qed.

Lemma forest_then_below (f : Node A → list (Node A)) d :
  Permutation (d ++ flat_map f d) (flat_map (λ c, c :: f c) d).
Proof.
  induction d as [|x d IH]; simpl; [done|].
  constructor. rewrite <- IH. apply Permutation_app_swap_app.
Qed.

Lemma preorder_levels_from H : ∀ d,
  Forall (λ c, height c < H) d →
  Permutation (flat_map (λ c, c :: preorder c) d) (levels_from H d).
Proof.
  induction H as [|H IH]; intros d Hd.
  - destruct d as [|x d]; [done|]. apply Forall_cons_1 in Hd as [? _]; lia.
  - simpl. rewrite <- (IH (flat_map children d))
      by by apply height_flat_map_children.
    rewrite flat_map_twice.
    rewrite (flat_map_ext
               (λ x, flat_map (λ c, c :: preorder c) (children x)) preorder)
      by (intros c; symmetry; apply preorder_unfold).
    symmetry. apply forest_then_below.
Qed.

(** Both orders list the same nodes, each as often as the other. *)
Lemma preorder_level_order n : Permutation (preorder n) (level_order n).
Proof.
  rewrite preorder_unfold, level_order_levels.
  apply preorder_levels_from, height_children_bound. done.
Qed.

Lemma level_order_length n : length (level_order n) = totalDescendantCount n.
Proof.
  rewrite <- (Permutation_length (preorder_level_order n)).
  apply preorder_length.
Qed.

Lemma in_preorder n x : In x (preorder n) ↔ strict_descendant n x.
Proof.
  split.
  - revert x. induction n as [a cs IH] using Node_ind. intros x Hx.
    simpl in Hx. apply in_flat_map in Hx as (c & Hc & Hx).
    rewrite List.Forall_forall in IH.
    destruct Hx as [<-|Hx].
    + by apply sd_child.
    + apply sd_deeper with c; [done|]. by apply IH.
  - induction 1 as [n x Hx|n c x Hc _ IH];
      rewrite preorder_unfold; apply in_flat_map.
    + exists x. split; [done|by left].
    + exists c. split; [done|by right].
Qed.

Lemma in_level_order n x : In x (level_order n) ↔ strict_descendant n x.
Proof.
  rewrite <- in_preorder. split; apply Permutation_in;
    [symmetry|]; apply preorder_level_order.
Qed.

Lemma strict_descendant_height n x : strict_descendant n x → height x < height n.
Proof.
  induction 1 as [n x Hx|n c x Hc _ IH].
  - by apply height_child.
  - pose proof (height_child n c Hc). lia.
Qed.

Lemma strict_descendant_irrefl n : ¬ strict_descendant n n.
Proof. intros H%strict_descendant_height. lia. Qed.

(** Each level is made of the children of the level above, in order. *)
Lemma nodes_at_depth_S k : ∀ n,
  nodes_at_depth (S k) n = flat_map children (nodes_at_depth k n).
Proof.
  induction k as [|k IH]; intros n.
  - simpl. by rewrite flat_map_singleton, app_nil_r.
  - change (nodes_at_depth (S (S k)) n)
      with (flat_map (nodes_at_depth (S k)) (children n)).
    rewrite (flat_map_ext _ _ IH), <- flat_map_twice. done.
Qed.

(** What comes out of the waves of a queue is in the queue or below one of
    its nodes. *)
Lemma in_levels_from H : ∀ q x,
  In x (levels_from H q) → In x q ∨ ∃ c, In c q ∧ strict_descendant c x.
Proof.
  induction H as [|H IH]; intros q x; [done|].
  simpl. rewrite in_app_iff. intros [Hx|Hx]; [by left|right].
  apply IH in Hx as [Hx|(c' & Hc' & Hx)].
  - apply in_flat_map in Hx as (c & Hc & Hx). exists c. split; [done|].
    by apply sd_child.
  - apply in_flat_map in Hc' as (c & Hc & Hc'). exists c. split; [done|].
    by apply sd_deeper with c'.
Qed.

Lemma level_order_children_first n :
  ∃ deeper,
    level_order n = children n ++ deeper ∧
    ∀ x, In x deeper → ∃ c g, In c (children n) ∧ In g (children c) ∧
                        (x = g ∨ strict_descendant g x).
Proof.
  rewrite level_order_levels. destruct (height n) as [|H] eqn:Hheight.
  - exists []. rewrite app_nil_r. split; [|done].
    destruct n as [a [|c cs]]; [done|].
    pose proof (height_child (MkNode a (c :: cs)) c (or_introl eq_refl)) as Hlt.
    rewrite Hheight in Hlt. lia.
  - exists (levels_from H (flat_map children (children n))). split; [done|].
    intros x [Hx|(g & Hg & Hx)]%in_levels_from.
    + apply in_flat_map in Hx as (c & Hc & Hx). exists c, x. by eauto.
    + apply in_flat_map in Hg as (c & Hc & Hg). exists c, g. by eauto.
Qed.

Lemma expected_order_perm method n :
  Permutation (preorder n) (expected_order method n).
Proof.
  unfold expected_order. destruct (String.eqb _ _); [|done].
  apply preorder_level_order.
Qed.

Lemma chain_height a (below : list A) : height (chain a below) = length below.
Proof.
  revert a. induction below as [|b below IH]; intros a; simpl; [done|].
  rewrite IH. lia.
Qed.

Lemma chain_preorder a (below : list A) : preorder (chain a below) = chain_below below.
Proof.
  revert a. induction below as [|b below IH]; intros a; simpl; [done|].
  by rewrite IH, app_nil_r.
Qed.

Lemma chain_levels b (below : list A) :
  levels_from (S (length below)) [chain b below] = chain b below :: chain_below below.
Proof.
  revert b. induction below as [|c below IH]; intros b; [done|].
  change (levels_from (S (length (c :: below))) [chain b (c :: below)])
    with (chain b (c :: below) :: levels_from (S (length below)) [chain c below]).
  by rewrite IH.
Qed.

Lemma chain_level_order a (below : list A) :
  level_order (chain a below) = chain_below below.
Proof.
  rewrite level_order_levels, chain_height.
  destruct below as [|b below]; [done|]. apply chain_levels.
Qed.
End tree_facts.

(** ** Positions *)

Section node_map_facts.
Context {A : Type}.
Implicit Types (n c : Node A).

Lemma children_node_map {B} (f : A → B) n :
  children (node_map f n) = map (node_map f) (children n).
Proof. by destruct n. Qed.

Lemma height_node_map {B} (f : A → B) n : height (node_map f n) = height n.
Proof.
  induction n as [a cs IH] using Node_ind. simpl. f_equal.
  induction IH as [|c cs Hc _ IHcs]; simpl; [done|]. by rewrite Hc, IHcs.
Qed.

Lemma preorder_node_map {B} (f : A → B) n :
  preorder (node_map f n) = map (node_map f) (preorder n).
Proof.
  induction n as [a cs IH] using Node_ind. simpl.
  induction IH as [|c cs Hc _ IHcs]; simpl; [done|].
  by rewrite map_app, Hc, IHcs.
Qed.

Lemma flat_map_children_node_map {B} (f : A → B) (q : list (Node A)) :
  flat_map children (map (node_map f) q) = map (node_map f) (flat_map children q).
Proof.
  induction q as [|c q IH]; simpl; [done|].
  by rewrite map_app, children_node_map, IH.
Qed.

Lemma levels_from_node_map {B} (f : A → B) H : ∀ q : list (Node A),
  levels_from H (map (node_map f) q) = map (node_map f) (levels_from H q).
Proof.
  induction H as [|H IH]; intros q; simpl; [done|].
  by rewrite map_app, flat_map_children_node_map, IH.
Qed.

Lemma level_order_node_map {B} (f : A → B) n :
  level_order (node_map f n) = map (node_map f) (level_order n).
Proof.
  by rewrite !level_order_levels, height_node_map, children_node_map,
    levels_from_node_map.
Qed.

End node_map_facts.

Section labels.
Context {A : Type}.
Implicit Types (n c : Node A) (p s x : list nat).

Lemma position_label_from p n : position (label_from p n) = p.
Proof. by destruct n. Qed.

(** Forgetting the tags gives the tree back. *)
Lemma erase_label_from n : ∀ p, erase (label_from p n) = n.
Proof.
  induction n as [a cs IH] using Node_ind. intros p.
  unfold erase. simpl. f_equal. generalize 0.
  induction IH as [|c cs Hc _ IHcs]; intros i; simpl; [done|].
  unfold erase in Hc. by rewrite Hc, IHcs.
Qed.

(** The positions met below a forest of tagged siblings. *)
Lemma in_forest_positions (cs : list (Node A)) :
  Forall (λ c, ∀ p x,
    In x (map position (preorder (label_from p c))) ↔
    ∃ s, s ≠ [] ∧ x = p ++ s ∧ is_Some (subtree_at c s)) cs →
  ∀ i p x,
    In x (map position
            (flat_map (λ m, m :: preorder m)
               (map_from (λ j c, label_from (p ++ [j]) c) i cs))) ↔
    ∃ j c s, cs !! j = Some c ∧ x = p ++ (i + j) :: s ∧ is_Some (subtree_at c s).
Proof.
  induction 1 as [|c cs Hc _ IH]; intros i p x.
  - simpl. split; [done|]. by intros (j & c & s & ? & _).
  - cbn [map_from flat_map app map]. rewrite map_app, position_label_from.
    cbn [In]. rewrite in_app_iff, Hc, IH. split.
    + intros [<-|[(s & Hs & -> & Hsub)|(j & c' & s & Hj & -> & Hsub)]].
      * exists 0, c, []. rewrite Nat.add_0_r. by eauto.
      * exists 0, c, s. rewrite Nat.add_0_r, <- app_assoc. done.
      * exists (S j), c', s. rewrite Nat.add_succ_r. done.
    + intros (j & c' & s & Hj & -> & Hsub). destruct j as [|j].
      * simpl in Hj. injection Hj as <-. rewrite Nat.add_0_r.
        destruct s as [|k s]; [by left|]. right; left.
        exists (k :: s). by rewrite <- app_assoc.
      * right; right. exists j, c', s. rewrite Nat.add_succ_r. done.
Qed.

(** The positions met below a tagged node are the positions of the nodes
    strictly below it. *)
Lemma in_positions n : ∀ p x,
  In x (map position (preorder (label_from p n))) ↔
  ∃ s, s ≠ [] ∧ x = p ++ s ∧ is_Some (subtree_at n s).
Proof.
  induction n as [a cs IH] using Node_ind. intros p x.
  cbn [label_from preorder]. rewrite (in_forest_positions cs IH). split.
  - intros (j & c & s & Hj & -> & Hsub). exists (j :: s).
    split_and!; [done|done|]. simpl. by rewrite Hj.
  - intros (s & Hs & -> & Hsub). destruct s as [|j s]; [done|].
    simpl in Hsub. destruct (cs !! j) as [c|] eqn:Hj; [|by destruct Hsub].
    by exists j, c, s.
Qed.

Lemma NoDup_forest_positions (cs : list (Node A)) :
  Forall (λ c, ∀ p, NoDup (map position (preorder (label_from p c)))) cs →
  ∀ i p,
    NoDup (map position
             (flat_map (λ m, m :: preorder m)
                (map_from (λ j c, label_from (p ++ [j]) c) i cs))).
Proof.
  induction 1 as [|c cs Hc _ IH]; intros i p.
  - simpl. constructor.
  - cbn [map_from flat_map app map]. rewrite map_app, position_label_from.
    assert (∀ x, In x (map position (flat_map (λ m, m :: preorder m)
              (map_from (λ j c, label_from (p ++ [j]) c) (S i) cs))) →
            ∃ j s, x = p ++ (S i + j) :: s) as Hlater.
    { intros x Hx. apply in_forest_positions in Hx as (j & c' & s & _ & -> & _).
      - by exists j, s.
      - apply List.Forall_forall. intros ? _. apply in_positions. }
    apply NoDup_cons. split; [|apply NoDup_app; split_and!].
    + rewrite list_elem_of_In, in_app_iff.
      intros [(s & Hs & Heq & _)%in_positions|(j & s & Heq)%Hlater].
      * rewrite <- (app_nil_r (p ++ [i])) in Heq at 1.
        apply app_inv_head in Heq. done.
      * apply app_inv_head in Heq. injection Heq as Heq _. lia.
    + apply Hc.
    + intros x (s & Hs & -> & _)%list_elem_of_In%in_positions
        (j & s' & Heq)%list_elem_of_In%Hlater.
      rewrite <- app_assoc in Heq. apply app_inv_head in Heq.
      injection Heq as Heq _. lia.
    + apply IH.
Qed.

(** No position is met twice. *)
Lemma NoDup_positions n : ∀ p, NoDup (map position (preorder (label_from p n))).
Proof.
  induction n as [a cs IH] using Node_ind. intros p.
  cbn [label_from preorder]. by apply NoDup_forest_positions.
Qed.

Lemma height_label_from p n : height (label_from p n) = height n.
Proof.
  rewrite <- (height_node_map snd (label_from p n)).
  fold (erase (label_from p n)). by rewrite erase_label_from.
Qed.

(** Erasing the tags of what a strategy lists in the tagged tree gives what
    it lists in the tree itself. *)
Lemma expected_order_erase method n :
  map erase (expected_order method (label_from [] n)) = expected_order method n.
Proof.
  unfold expected_order, erase. destruct (String.eqb _ _).
  - rewrite <- level_order_node_map. fold (erase (label_from [] n)).
    by rewrite erase_label_from.
  - rewrite <- preorder_node_map. fold (erase (label_from [] n)).
    by rewrite erase_label_from.
Qed.

(** Each strategy lists every position strictly below the root once. *)
Lemma expected_order_positions method n :
  each_once (λ p, p ≠ [] ∧ is_Some (subtree_at n p))
    (map position (expected_order method (label_from [] n))).
Proof.
  assert (Permutation (map position (preorder (label_from [] n)))
            (map position (expected_order method (label_from [] n)))) as Hperm
    by apply Permutation_map, expected_order_perm.
  split.
  - rewrite <- Hperm. apply NoDup_positions.
  - intros p. rewrite <- (Permutation_in' eq_refl Hperm), in_positions.
    split.
    + intros [Hp Hsub]. by exists p.
    + by intros (s' & Hs & -> & Hsub).
Qed.
End labels.

(** ** Running generators *)

(** Induction on what a generator has left to do, for every store. *)
Ltac gen_induction g h :=
  revert h;
  induction g as [[]|?n ?k IH|?e| |?init ?k IH|?q ?k IH|?q ?k IH|?q ?xs ?k IH];
  intros h; simpl.

Section run_facts.
Context {A : Type}.
Implicit Types (h : heap A) (g : Gen A unit) (q : loc) (d : list (Node A)).

Lemma consume_bind h g (f : unit → Gen A unit) :
  consume h (bind g f) =
    match consume h g with
    | (h', out, Done) =>
        let '(h'', out', o) := consume h' (f tt) in (h'', out ++ out', o)
    | other => other
    end.
Proof.
  gen_induction g h.
  - by destruct (consume h (f tt)) as [[??]?].
  - rewrite IH. destruct (consume h k) as [[h' out] []]; try done.
    by destruct (consume h' (f tt)) as [[??]?].
  - done.
  - done.
  - apply IH.
  - destruct (h !! q) as [d|]; [apply IH|done].
  - destruct (h !! q) as [[|x d]|]; [done|apply IH|done].
  - destruct (h !! q) as [d|]; [apply IH|done].
Qed.

(** Pulling one element after the other gives what [consume] gives. *)
Lemma consume_next h g :
  consume h g =
    match next h g with
    | (h', g', Item n) => let '(h'', out, o) := consume h' g' in (h'', n :: out, o)
    | (h', _, Stop o) => (h', [], o)
    end.
Proof.
  gen_induction g h;
    try done.
  - destruct (h !! q) as [d|]; [apply IH|done].
  - destruct (h !! q) as [[|x d]|]; [done|apply IH|done].
  - destruct (h !! q) as [d|]; [apply IH|done].
Qed.

Lemma consume_for_each h (body : Node A → Gen A unit) (f : Node A → list (Node A)) xs :
  Forall (λ x, ∀ h, consume h (body x) = (h, f x, Done)) xs →
  consume h (for_each body xs) = (h, flat_map f xs, Done).
Proof.
  induction 1 as [|x xs Hx _ IH]; simpl; [done|].
  by rewrite consume_bind, Hx, IH.
Qed.

(** The depth-first walker never touches the store and yields the nodes
    below the cursor in pre-order. *)
Lemma consume_depth_first h (cursor : TreeCursor A) :
  consume h (traverse_tree_depth_first cursor) = (h, preorder cursor, Done).
Proof.
  revert h. induction cursor as [a cs IH] using Node_ind; intros h.
  simpl. apply consume_for_each.
  eapply Forall_impl; [exact IH|]. intros c Hc h'. simpl.
  unfold yield_from, walk. by rewrite Hc.
Qed.

(** *** The breadth-first walker *)

Lemma breadth_first_Some fuel (cursor : TreeCursor A) q :
  traverse_tree_breadth_first (S fuel) cursor (Some q) =
    Len q (λ n, breadth_first_rest fuel cursor q n).
Proof. reflexivity. Qed.

Lemma breadth_first_None fuel (cursor : TreeCursor A) :
  traverse_tree_breadth_first (S fuel) cursor None =
    NewDeque (children (node cursor))
      (λ q, Len q (λ n, breadth_first_rest fuel cursor q n)).
Proof. reflexivity. Qed.

Lemma breadth_first_rest_S fuel (cursor : TreeCursor A) q k :
  breadth_first_rest fuel cursor q (S k) =
    PopLeft q (λ x, Extend q (children x) (Yield x (breadth_first_rest fuel cursor q k))).
Proof. reflexivity. Qed.

Lemma breadth_first_rest_0 fuel (cursor : TreeCursor A) q :
  breadth_first_rest fuel cursor q 0 =
    Len q (λ n', if Nat.eqb n' 0 then Ret tt
                 else traverse_tree_breadth_first fuel cursor (Some q)).
Proof. reflexivity. Qed.

(** One pass of the loop.  With [d] at the front of the deque and [length
    d] rounds to go, the pass yields exactly [d], in order, and leaves in
    the deque what was behind [d], followed by the children of [d]. *)
Lemma consume_pass fuel (cursor : TreeCursor A) q d e h :
  h !! q = Some (d ++ e) →
  consume h (breadth_first_rest fuel cursor q (length d)) =
    let '(h', out, o) :=
      consume (<[q := e ++ flat_map children d]> h)
              (breadth_first_rest fuel cursor q 0) in
    (h', d ++ out, o).
Proof.
  revert e h. induction d as [|x d IH]; intros e h Hq.
  - cbn [length flat_map app]. rewrite app_nil_r, insert_id by done.
    by destruct (consume h _) as [[??]?].
  - cbn [length]. rewrite breadth_first_rest_S. cbn [consume].
    rewrite Hq. cbn [app]. rewrite lookup_insert_eq.
    rewrite (IH (e ++ children x)).
    2:{ by rewrite lookup_insert_eq, app_assoc. }
    rewrite !insert_insert_eq. cbn [flat_map]. rewrite app_assoc.
    by destruct (consume _ _) as [[??]?].
Qed.

(** A call that receives the deque [d] yields the waves of [d] and leaves
    the deque empty, provided the fuel exceeds the number of waves. *)
Lemma consume_breadth_first_queue H : ∀ fuel (cursor : TreeCursor A) q d h,
  H < fuel →
  Forall (λ c, height c < H) d →
  h !! q = Some d →
  consume h (traverse_tree_breadth_first fuel cursor (Some q)) =
    (<[q := []]> h, levels_from H d, Done).
Proof.
  induction H as [|H IH]; intros fuel cursor q d h Hfuel Hd Hq;
    destruct fuel as [|fuel]; try lia; rewrite breadth_first_Some; cbn [consume];
    rewrite Hq.
  - destruct d as [|x d]; [|apply Forall_cons_1 in Hd as [? _]; lia].
    cbn [length]. rewrite breadth_first_rest_0. cbn [consume]. rewrite Hq.
    cbn. by rewrite insert_id.
  - rewrite (consume_pass _ _ _ d []) by (by rewrite app_nil_r).
    cbn [app]. rewrite breadth_first_rest_0. cbn [consume].
    rewrite lookup_insert_eq. cbn [levels_from].
    destruct (flat_map children d) as [|y d'] eqn:Hnext.
    + cbn. by rewrite levels_from_nil.
    + cbn [length Nat.eqb].
      rewrite (IH fuel cursor q (y :: d')); [| lia | | by rewrite lookup_insert_eq].
      * by rewrite insert_insert_eq.
      * rewrite <- Hnext. by apply height_flat_map_children.
Qed.

(** The breadth-first walker, started on a cursor with enough fuel, creates
    one deque, yields the nodes below the cursor in level order and leaves
    the deque empty. *)
Lemma consume_breadth_first fuel (cursor : TreeCursor A) h :
  height cursor < fuel →
  consume h (traverse_tree_breadth_first fuel cursor None) =
    (<[fresh (dom h) := []]> h, level_order cursor, Done).
Proof.
  intros Hfuel. destruct fuel as [|fuel]; [lia|].
  change (consume h (traverse_tree_breadth_first (S fuel) cursor None))
    with (consume (<[fresh (dom h) := children cursor]> h)
            (traverse_tree_breadth_first (S fuel) cursor (Some (fresh (dom h))))).
  rewrite (consume_breadth_first_queue (height cursor) _ _ _ (children cursor));
    [| done | by apply height_children_bound | by rewrite lookup_insert_eq].
  by rewrite insert_insert_eq, level_order_levels.
Qed.

Lemma next_Stop h g h' g' o : next h g = (h', g', Stop o) → g' = Ret tt.
Proof.
  gen_induction g h;
    try congruence.
  - apply IH.
  - destruct (h !! q) as [d|]; [apply IH|congruence].
  - destruct (h !! q) as [[|x d]|]; [congruence|apply IH|congruence].
  - destruct (h !! q) as [d|]; [apply IH|congruence].
Qed.

Lemma pulls_ended k h : pulls k h (Ret tt) = replicate k (Stop Done).
Proof. induction k as [|k IH]; simpl; [done|]. by rewrite IH. Qed.

(** Pulling until the end, and beyond: the nodes [consume] collects, one
    per pull, then the end, then [StopIteration] for ever. *)
Lemma pulls_consume out : ∀ h g h' o k,
  consume h g = (h', out, o) →
  pulls (length out + S k) h g =
    map Item out ++ Stop o :: replicate k (Stop Done).
Proof.
  induction out as [|x out IH]; intros h g h' o k; rewrite consume_next;
    destruct (next h g) as [[h1 g1] [n|o1]] eqn:Hnext; simpl; rewrite Hnext.
  - destruct (consume h1 g1) as [[??]?]. congruence.
  - intros [= _ ->]. apply next_Stop in Hnext as ->. by rewrite pulls_ended.
  - destruct (consume h1 g1) as [[h2 out2] o2] eqn:Hrest.
    intros [= -> -> -> ->]. f_equal. by eapply IH.
  - congruence.
Qed.

(** Pulling [n] times gives the first [n] of: the nodes, the end, then
    [StopIteration] for ever. *)
Lemma pulls_prefix n : ∀ m out h g h' o,
  n ≤ m →
  consume h g = (h', out, o) →
  pulls n h g = take n (map Item out ++ Stop o :: replicate m (Stop Done)).
Proof.
  induction n as [|n IH]; intros m out h g h' o Hm; [done|].
  rewrite consume_next. cbn [pulls].
  destruct (next h g) as [[h1 g1] [x|o1]] eqn:Hnext.
  - destruct (consume h1 g1) as [[h2 out2] o2] eqn:Hrest.
    intros [= -> <- ->]. cbn. f_equal. eapply IH; [lia|done].
  - intros [= _ <- ->]. apply next_Stop in Hnext as ->. cbn.
    rewrite pulls_ended, take_replicate. do 2 f_equal. lia.
Qed.

(** *** The dispatcher *)

Lemma traverse_depth_first fuel (ast : Tree A) :
  traverse fuel ast (Some "depth_first") = traverse_tree_depth_first (tree_walk ast).
Proof. reflexivity. Qed.

Lemma traverse_breadth_first fuel (ast : Tree A) :
  traverse fuel ast (Some "breadth_first") =
    traverse_tree_breadth_first fuel (tree_walk ast) None.
Proof. reflexivity. Qed.

Lemma traverse_unsupported fuel (ast : Tree A) method :
  method ≠ "depth_first" → method ≠ "breadth_first" →
  traverse fuel ast (Some method) =
    Raise (ValueError ("Value for argument 'method' " +:+ method +:+ " not supported.")).
Proof.
  intros Hd%String.eqb_neq Hb%String.eqb_neq. unfold traverse.
  by rewrite Hb, Hd.
Qed.

(** With a strategy it knows and enough fuel, [traverse] yields the order
    of the strategy and ends normally, whatever else the store holds. *)
Lemma consume_traverse fuel (ast : Tree A) method h :
  valid_method method →
  height (root_node ast) < fuel →
  nodes_of (consume h (traverse fuel ast (Some method))) =
    expected_order method (root_node ast) ∧
  ending_of (consume h (traverse fuel ast (Some method))) = Done.
Proof.
  intros [-> | ->] Hfuel.
  - by rewrite traverse_depth_first, consume_depth_first.
  - by rewrite traverse_breadth_first, consume_breadth_first.
Qed.
End run_facts.

(** ** Two traversals in one store *)

Section independence.
Context {A : Type}.
Implicit Types (h hs : heap A) (g : Gen A unit) (q : loc) (d : list (Node A)).

Lemma heap_free_bind g (f : unit → Gen A unit) :
  heap_free g → heap_free (f tt) → heap_free (bind g f).
Proof.
  intros Hg Hf. induction Hg as [[]|n k _ IH|e|]; simpl;
    [done|by constructor|constructor|constructor].
Qed.

Lemma heap_free_depth_first (cursor : TreeCursor A) :
  heap_free (traverse_tree_depth_first cursor).
Proof.
  induction cursor as [a cs IH] using Node_ind. simpl.
  induction IH as [|c cs Hc _ IHcs]; simpl; [constructor|].
  constructor. simpl. by apply heap_free_bind.
Qed.

Lemma heap_free_traverse fuel (ast : Tree A) method :
  heap_free (traverse fuel ast method) ∨
  traverse fuel ast method =
    traverse_tree_breadth_first fuel (tree_walk ast) None.
Proof.
  unfold traverse.
  destruct (String.eqb _ "breadth_first"); [by right|left].
  destruct (String.eqb _ "depth_first");
    [apply heap_free_depth_first|constructor].
Qed.

Lemma next_heap_free h g :
  heap_free g →
  ∃ g' r, heap_free g' ∧ ∀ h', next h' g = (h', g', r).
Proof.
  intros [[]|n k Hk|e|]; simpl; eexists _, _; (split; [|done]);
    first [done|constructor].
Qed.

Lemma next_rest_S fuel (cursor : TreeCursor A) q k h x d :
  h !! q = Some (x :: d) →
  next h (breadth_first_rest fuel cursor q (S k)) =
    (<[q := d ++ children x]> h, breadth_first_rest fuel cursor q k, Item x).
Proof.
  intros Hq. rewrite breadth_first_rest_S. cbn [next].
  by rewrite Hq, lookup_insert_eq, insert_insert_eq.
Qed.

Lemma next_rest_S_empty fuel (cursor : TreeCursor A) q k h :
  h !! q = Some [] →
  next h (breadth_first_rest fuel cursor q (S k)) =
    (h, Ret tt, Stop (Raised IndexError)).
Proof. intros Hq. rewrite breadth_first_rest_S. cbn [next]. by rewrite Hq. Qed.

Lemma next_rest_0 fuel (cursor : TreeCursor A) q h d :
  h !! q = Some d →
  next h (breadth_first_rest fuel cursor q 0) =
    if Nat.eqb (length d) 0 then (h, Ret tt, Stop Done)
    else next h (traverse_tree_breadth_first fuel cursor (Some q)).
Proof.
  intros Hq. rewrite breadth_first_rest_0. cbn [next]. rewrite Hq.
  by destruct (Nat.eqb (length d) 0).
Qed.

Lemma next_enter fuel (cursor : TreeCursor A) q h d :
  h !! q = Some d →
  next h (traverse_tree_breadth_first (S fuel) cursor (Some q)) =
    next h (breadth_first_rest fuel cursor q (length d)).
Proof. intros Hq. rewrite breadth_first_Some. cbn [next]. by rewrite Hq. Qed.

Lemma next_enter_nil fuel (cursor : TreeCursor A) q h :
  h !! q = Some [] →
  next h (traverse_tree_breadth_first (S fuel) cursor (Some q)) =
    (h, Ret tt, Stop Done).
Proof.
  intros Hq. by rewrite (next_enter _ _ _ _ []), (next_rest_0 _ _ _ _ []).
Qed.

Lemma next_enter_cons fuel (cursor : TreeCursor A) q h x d :
  h !! q = Some (x :: d) →
  next h (traverse_tree_breadth_first (S fuel) cursor (Some q)) =
    (<[q := d ++ children x]> h,
     breadth_first_rest fuel cursor q (length d), Item x).
Proof.
  intros Hq. rewrite (next_enter _ _ _ _ (x :: d)) by done.
  by apply next_rest_S.
Qed.

Lemma next_new fuel (cursor : TreeCursor A) h :
  next h (traverse_tree_breadth_first (S fuel) cursor None) =
    next (<[fresh (dom h) := children (node cursor)]> h)
         (traverse_tree_breadth_first (S fuel) cursor (Some (fresh (dom h)))).
Proof. reflexivity. Qed.

Lemma fresh_unused h : h !! fresh (dom h) = None.
Proof. apply not_elem_of_dom, is_fresh. Qed.

Lemma insert_keeps h q d l :
  is_Some (h !! l) → h !! q = None → <[q := d]> h !! l = h !! l.
Proof. intros [v Hl] Hq. apply lookup_insert_ne. intros ->. congruence. Qed.

(** One pull keeps two generators that are at the same point of the same
    traversal at the same point, gives both the same element, and changes
    nothing in the store but the deque the generator owns or creates. *)
Lemma same_run_next hs gs h g o :
  same_run hs gs h g o →
  ∃ hs' gs' h' g' r o',
    next hs gs = (hs', gs', r) ∧ next h g = (h', g', r) ∧
    same_run hs' gs' h' g' o' ∧
    (∀ l, is_Some (h !! l) → o ≠ Some l → h' !! l = h !! l) ∧
    (o' = None ∨ o' = o ∨ ∃ l, o' = Some l ∧ h !! l = None).
Proof.
  intros [hs0 h0 g0 Hfree|hs0 h0 fuel cursor|hs0 h0 fuel cursor qs q k d Hqs Hq].
  - destruct (next_heap_free h0 g0 Hfree) as (g' & r & Hfree' & Hnext).
    exists hs0, g', h0, g', r, None. rewrite !Hnext.
    split_and!; [done|done|by constructor|done|by left].
  - destruct fuel as [|fuel].
    { exists hs0, (Ret tt), h0, (Ret tt), (Stop Exhausted), None.
      split_and!; [done|done|repeat constructor|done|by left]. }
    rewrite !next_new.
    destruct (children (node cursor)) as [|x d] eqn:Hcs.
    + rewrite !next_enter_nil by by rewrite lookup_insert_eq.
      eexists _, _, _, _, _, None.
      split_and!; [done|done|repeat constructor| |by left].
      intros l Hl _. apply insert_keeps; [done|apply fresh_unused].
    + rewrite !(next_enter_cons _ _ _ _ x d) by by rewrite lookup_insert_eq.
      rewrite !insert_insert_eq.
      eexists _, _, _, _, _, (Some (fresh (dom h0))).
      split_and!; [done|done| | |].
      * eapply same_rest; by rewrite lookup_insert_eq.
      * intros l Hl _. apply insert_keeps; [done|apply fresh_unused].
      * right; right. eexists. split; [done|apply fresh_unused].
  - assert (∀ d' l, is_Some (h0 !! l) → Some q ≠ Some l →
              <[q := d']> h0 !! l = h0 !! l) as Hframe.
    { intros d' l _ Hne. apply lookup_insert_ne. congruence. }
    destruct k as [|k].
    + rewrite (next_rest_0 _ _ _ hs0 d), (next_rest_0 _ _ _ h0 d) by done.
      destruct d as [|x d]; cbn [length Nat.eqb].
      { eexists _, _, _, _, _, None.
        split_and!; [done|done|repeat constructor|done|by left]. }
      destruct fuel as [|fuel].
      { exists hs0, (Ret tt), h0, (Ret tt), (Stop Exhausted), None.
        split_and!; [done|done|repeat constructor|done|by left]. }
      rewrite !(next_enter_cons _ _ _ _ x d) by done.
      eexists _, _, _, _, _, (Some q).
      split_and!; [done|done| |by apply Hframe|by right; left].
      eapply same_rest; by rewrite lookup_insert_eq.
    + destruct d as [|x d].
      { rewrite !next_rest_S_empty by done.
        eexists _, _, _, _, _, None.
        split_and!; [done|done|repeat constructor|done|by left]. }
      rewrite !(next_rest_S _ _ _ _ _ x d) by done.
      eexists _, _, _, _, _, (Some q).
      split_and!; [done|done| |by apply Hframe|by right; left].
      eapply same_rest; by rewrite lookup_insert_eq.
Qed.

(** A pull of another generator, which leaves the deque of this one alone,
    does not disturb it. *)
Lemma same_run_frame hs gs h h' g o :
  same_run hs gs h g o →
  (∀ l, o = Some l → h' !! l = h !! l) →
  same_run hs gs h' g o.
Proof.
  intros [hs0 h0 g0 Hfree|hs0 h0 fuel cursor|hs0 h0 fuel cursor qs q k d Hqs Hq] Hsame.
  - by apply same_free.
  - apply same_new.
  - eapply same_rest; [done|]. by rewrite Hsame.
Qed.

Lemma same_run_owned hs gs h g l :
  same_run hs gs h g (Some l) → is_Some (h !! l).
Proof. inversion 1; subst. by eexists. Qed.

Lemma interleave_same s : ∀ hs1 gs1 hs2 gs2 h g1 g2 o1 o2,
  same_run hs1 gs1 h g1 o1 →
  same_run hs2 gs2 h g2 o2 →
  (∀ l, o1 = Some l → o2 ≠ Some l) →
  interleave s h g1 g2 =
    (pulls (turns true s) hs1 gs1, pulls (turns false s) hs2 gs2).
Proof.
  induction s as [|b s IH]; intros hs1 gs1 hs2 gs2 h g1 g2 o1 o2 H1 H2 Hdisj;
    [done|].
  destruct b; cbn [interleave turns Bool.eqb Nat.add pulls].
  - destruct (same_run_next _ _ _ _ _ H1)
      as (hs' & gs' & h' & g' & r & o' & -> & -> & H1' & Hframe & Hown).
    rewrite (IH hs' gs' hs2 gs2 h' g' g2 o' o2); [done|done| |].
    + eapply same_run_frame; [done|]. intros l ->. apply Hframe.
      * by eapply same_run_owned.
      * intros ->. by eapply Hdisj.
    + intros l -> ->. destruct Hown as [?|[<-|(l' & [= <-] & Hnone)]];
        [done|by eapply Hdisj|].
      apply same_run_owned in H2 as [? ?]. congruence.
  - destruct (same_run_next _ _ _ _ _ H2)
      as (hs' & gs' & h' & g' & r & o' & -> & -> & H2' & Hframe & Hown).
    rewrite (IH hs1 gs1 hs' gs' h' g1 g' o1 o'); [done| |done|].
    + eapply same_run_frame; [done|]. intros l ->. apply Hframe.
      * by eapply same_run_owned.
      * intros ->. by eapply Hdisj.
    + intros l -> ->. destruct Hown as [?|[<-|(l' & [= <-] & Hnone)]];
        [done|by eapply Hdisj|].
      apply same_run_owned in H1 as [? ?]. congruence.
Qed.

Lemma same_run_start fuel (ast : Tree A) method hs h :
  same_run hs (traverse fuel ast method) h (traverse fuel ast method) None.
Proof.
  destruct (heap_free_traverse fuel ast method) as [Hfree| ->];
    [by apply same_free|apply same_new].
Qed.
End independence.

(** ** The properties of the traversal engine *)

(** C1.  With the strategy [breadth_first], [traverse] yields the nodes below
    the root level by level: depth 1 (the children of the root, in their
    order), then depth 2, and so on, each level being the children of the
    level above in order, so that all the children of the root come first
    and only grandchildren and what is below them follow; a call that finds
    [d] in the deque drains exactly the [length d] nodes it read at its start
    and leaves their children queued for what follows; for the root with
    children [A, B], where A has the child A1, the sequence is [A, B, A1]. *)
Theorem breadth_first_level_by_level {A} (fuel : nat) (ast : Tree A) (h : heap A) :
  height (root_node ast) < fuel →
  let root := root_node ast in
  let result := consume h (traverse fuel ast (Some "breadth_first")) in
  nodes_of result = flat_map (λ d, nodes_at_depth d root) (seq 1 (height root)) ∧
  ending_of result = Done ∧
  nodes_at_depth 1 root = children root ∧
  (∀ d, nodes_at_depth (S d) root = flat_map children (nodes_at_depth d root)) ∧
  (∃ deeper,
     nodes_of result = children root ++ deeper ∧
     ∀ x, In x deeper → ∃ c g, In c (children root) ∧ In g (children c) ∧
                         (x = g ∨ strict_descendant g x)) ∧
  (∀ fuel' (cursor : TreeCursor A) q d h',
     h' !! q = Some d →
     consume h' (traverse_tree_breadth_first (S fuel') cursor (Some q)) =
       let '(h'', later, o) :=
         consume (<[q := flat_map children d]> h')
                 (breadth_first_rest fuel' cursor q 0) in
       (h'', d ++ later, o)) ∧
  (∀ r a b a1 : A,
     let A1 := MkNode a1 [] in
     let A_ := MkNode a [A1] in
     let B := MkNode b [] in
     nodes_of (consume h (traverse 3 (MkTree (MkNode r [A_; B])) (Some "breadth_first")))
       = [A_; B; A1]).
Proof.
  intros Hfuel root result. subst result.
  rewrite traverse_breadth_first, consume_breadth_first by done.
  split_and!.
  - done.
  - done.
  - simpl. by rewrite flat_map_singleton.
  - intros d. apply nodes_at_depth_S.
  - apply level_order_children_first.
  - intros fuel' cursor q d h' Hq. rewrite breadth_first_Some. cbn [consume].
    rewrite Hq. by rewrite (consume_pass _ _ _ d []) by by rewrite app_nil_r.
  - intros r a b a1 A1 A_ B.
    rewrite traverse_breadth_first, consume_breadth_first; [done|].
    cbn. lia.
Qed.

(** The tree of the example, with fuel 3. *)
Lemma breadth_first_level_by_level_witness :
  height (root_node ex_tree) < 3 ∧
  nodes_of (consume ∅ (traverse 3 ex_tree (Some "breadth_first"))) = [ex_A; ex_B; ex_A1].
Proof.
  assert (height (root_node ex_tree) < 3) as Hfuel by (cbn; lia).
  split; [exact Hfuel|].
  destruct (breadth_first_level_by_level 3 ex_tree ∅ Hfuel) as (Hnodes & _).
  rewrite Hnodes. reflexivity.
Defined.

(** C2, as stated, fails: the root is reachable from the root, and neither
    strategy visits it. *)
Lemma root_is_reachable_but_not_visited :
  ¬ each_once (λ p, is_Some (subtree_at (root_node ex_tree) p))
      (map position
         (nodes_of (consume ∅ (traverse 3 (label ex_tree) (Some "depth_first"))))) ∧
  ¬ each_once (λ p, is_Some (subtree_at (root_node ex_tree) p))
      (map position
         (nodes_of (consume ∅ (traverse 3 (label ex_tree) (Some "breadth_first"))))).
Proof.
  split; intros [_ Hall]; destruct (Hall []) as [Hin _];
    specialize (Hin (mk_is_Some _ _ eq_refl)); vm_compute in Hin;
    intuition discriminate.
Qed.

(** C2, amended.  For each of the two strategies, every node strictly below
    the root is visited exactly once, and the root itself is not visited: in
    the tree whose nodes carry their position, the positions met are those
    of the nodes below the root, none of them twice.  The order depends on
    the strategy and the tree only, not on the store the traversal runs in;
    the traversal leaves every object that was in the store as it was. *)
Theorem every_node_below_root_visited_once
    {A} (fuel : nat) (ast : Tree A) (method : string)
    (h : heap A) (ht : heap (list nat * A)) :
  valid_method method →
  height (root_node ast) < fuel →
  let result := consume h (traverse fuel ast (Some method)) in
  let tagged := consume ht (traverse fuel (label ast) (Some method)) in
  each_once (λ p, p ≠ [] ∧ is_Some (subtree_at (root_node ast) p))
    (map position (nodes_of tagged)) ∧
  map erase (nodes_of tagged) = nodes_of result ∧
  nodes_of result = expected_order method (root_node ast) ∧
  ending_of result = Done ∧
  (∀ l, is_Some (h !! l) → store_of result !! l = h !! l).
Proof.
  intros Hvalid Hfuel result tagged. subst result tagged.
  destruct (consume_traverse fuel ast method h Hvalid Hfuel) as [-> ->].
  destruct (consume_traverse fuel (label ast) method ht Hvalid) as [-> _].
  { simpl. by rewrite height_label_from. }
  split_and!.
  - apply expected_order_positions.
  - apply expected_order_erase.
  - done.
  - done.
  - intros l Hl. destruct Hvalid as [-> | ->].
    + by rewrite traverse_depth_first, consume_depth_first.
    + rewrite traverse_breadth_first, consume_breadth_first by done.
      cbn. apply lookup_insert_ne. intros <-.
      rewrite fresh_unused in Hl. by destruct Hl.
Qed.

(** The positions met breadth first in the tree of the example. *)
Lemma every_node_below_root_visited_once_witness :
  valid_method "breadth_first" ∧ height (root_node ex_tree) < 3 ∧
  map position
    (nodes_of (consume ∅ (traverse 3 (label ex_tree) (Some "breadth_first"))))
    = [[0]; [1]; [0; 0]] ∧
  each_once (λ p, p ≠ [] ∧ is_Some (subtree_at (root_node ex_tree) p))
    [[0]; [1]; [0; 0]].
Proof.
  assert (valid_method "breadth_first") as Hvalid by (by right).
  assert (height (root_node ex_tree) < 3) as Hfuel by (cbn; lia).
  split_and!; [exact Hvalid|exact Hfuel|reflexivity|].
  exact (proj1
    (every_node_below_root_visited_once 3 ex_tree "breadth_first" ∅ ∅ Hvalid Hfuel)).
Defined.

(** C3, as stated, fails: the call [traverse(tree, "bfs")] raises nothing.
    It returns a generator object; the error waits for the first pull. *)
Lemma unsupported_call_raises_nothing :
  ¬ ∃ e, call_traverse 3 ex_tree (Some "bfs") = Threw e.
Proof. intros [e He]. discriminate He. Qed.

(** C3, amended.  With a selector that is neither [depth_first] nor
    [breadth_first], the call itself returns a generator and raises nothing;
    the first pull from that generator raises [ValueError] (the
    specification's UnsupportedStrategy), before any node is yielded and
    without touching the store, and the generator is finished after it. *)
Theorem unsupported_strategy_raises_on_first_pull
    {A} (fuel : nat) (ast : Tree A) (method : string) (h : heap A) :
  method ≠ "depth_first" →
  method ≠ "breadth_first" →
  let e := ValueError ("Value for argument 'method' " +:+ method +:+ " not supported.") in
  call_traverse fuel ast (Some method) = Returned (traverse fuel ast (Some method)) ∧
  next h (traverse fuel ast (Some method)) = (h, Ret tt, Stop (Raised e)) ∧
  consume h (traverse fuel ast (Some method)) = (h, [], Raised e).
Proof.
  intros Hd Hb e. split; [done|].
  by rewrite traverse_unsupported.
Qed.

(** The selector ["bfs"] on the tree of the example. *)
Lemma unsupported_strategy_raises_on_first_pull_witness :
  "bfs" ≠ "depth_first" ∧ "bfs" ≠ "breadth_first" ∧
  next ∅ (traverse 3 ex_tree (Some "bfs")) =
    (∅, Ret tt,
     Stop (Raised (ValueError "Value for argument 'method' bfs not supported."))).
Proof.
  assert ("bfs" ≠ "depth_first") as Hd by discriminate.
  assert ("bfs" ≠ "breadth_first") as Hb by discriminate.
  split_and!; [exact Hd|exact Hb|].
  exact (proj1 (proj2
    (unsupported_strategy_raises_on_first_pull 3 ex_tree "bfs" ∅ Hd Hb))).
Defined.

(** C4.  With the strategy [depth_first], [traverse] yields the nodes below
    the root in pre-order and ends normally: the first child, then all that
    is below it, and only then its siblings; for the root with children
    [A, B], where A has the child A1, the sequence is [A, A1, B]. *)
Theorem depth_first_pre_order {A} (fuel : nat) (ast : Tree A) (h : heap A) :
  consume h (traverse fuel ast (Some "depth_first")) =
    (h, preorder (root_node ast), Done) ∧
  (∀ a : A, preorder (MkNode a []) = []) ∧
  (∀ (a : A) (c : Node A) siblings,
     preorder (MkNode a (c :: siblings)) =
       c :: preorder c ++ preorder (MkNode a siblings)) ∧
  (∀ r a b a1 : A,
     let A1 := MkNode a1 [] in
     let A_ := MkNode a [A1] in
     let B := MkNode b [] in
     nodes_of (consume h (traverse fuel (MkTree (MkNode r [A_; B])) (Some "depth_first")))
       = [A_; A1; B]).
Proof.
  split_and!.
  - by rewrite traverse_depth_first, consume_depth_first.
  - done.
  - done.
  - intros r a b a1 A1 A_ B.
    by rewrite traverse_depth_first, consume_depth_first.
Qed.

(** C5.  For every tree, the depth-first and the breadth-first sequence have
    the same length, which is the number of nodes below the root; one is a
    permutation of the other; and in the tree whose nodes carry their
    position, each of the two sequences meets no position twice and both
    meet the same positions. *)
Theorem both_strategies_visit_the_same_nodes
    {A} (fuel : nat) (ast : Tree A) (h1 h2 : heap A) (ht1 ht2 : heap (list nat * A)) :
  height (root_node ast) < fuel →
  let dfs := nodes_of (consume h1 (traverse fuel ast (Some "depth_first"))) in
  let bfs := nodes_of (consume h2 (traverse fuel ast (Some "breadth_first"))) in
  let dfs_tagged :=
    nodes_of (consume ht1 (traverse fuel (label ast) (Some "depth_first"))) in
  let bfs_tagged :=
    nodes_of (consume ht2 (traverse fuel (label ast) (Some "breadth_first"))) in
  length dfs = length bfs ∧
  length bfs = totalDescendantCount (root_node ast) ∧
  Permutation dfs bfs ∧
  map erase dfs_tagged = dfs ∧
  map erase bfs_tagged = bfs ∧
  NoDup (map position dfs_tagged) ∧
  NoDup (map position bfs_tagged) ∧
  (∀ p, In p (map position dfs_tagged) ↔ In p (map position bfs_tagged)).
Proof.
  intros Hfuel dfs bfs dfs_tagged bfs_tagged.
  assert (height (root_node (label ast)) < fuel) as Hfuel'
    by (simpl; by rewrite height_label_from).
  subst dfs bfs dfs_tagged bfs_tagged.
  rewrite !traverse_depth_first, !traverse_breadth_first, !consume_depth_first,
    !consume_breadth_first by done.
  cbn [nodes_of fst snd tree_walk label root_node].
  pose proof (expected_order_positions "depth_first" (root_node ast)) as [Hd1 Hd2].
  pose proof (expected_order_positions "breadth_first" (root_node ast)) as [Hb1 Hb2].
  split_and!.
  - by rewrite preorder_length, level_order_length.
  - apply level_order_length.
  - apply preorder_level_order.
  - apply (expected_order_erase "depth_first").
  - apply (expected_order_erase "breadth_first").
  - exact Hd1.
  - exact Hb1.
  - intros p. etrans; [symmetry; apply Hd2|apply Hb2].
Qed.

(** The two sequences of the tree of the example. *)
Lemma both_strategies_visit_the_same_nodes_witness :
  height (root_node ex_tree) < 3 ∧
  length (nodes_of (consume ∅ (traverse 3 ex_tree (Some "depth_first")))) = 3 ∧
  length (nodes_of (consume ∅ (traverse 3 ex_tree (Some "breadth_first")))) = 3 ∧
  Permutation [ex_A; ex_A1; ex_B] [ex_A; ex_B; ex_A1].
Proof.
  assert (height (root_node ex_tree) < 3) as Hfuel by (cbn; lia).
  split_and!; [exact Hfuel|reflexivity|reflexivity|].
  exact (proj1 (proj2 (proj2
    (both_strategies_visit_the_same_nodes 3 ex_tree ∅ ∅ ∅ ∅ Hfuel)))).
Defined.

(** C6.  The breadth-first traversal ends.  With fuel for one call per level
    of the tree it yields as many nodes as there are below the root and then
    stops normally, its deque empty; pulled one by one, it gives these nodes
    and then reports the end for ever.  Every pass yields all the nodes that
    were queued before it and leaves only their children, which sit strictly
    lower in the tree, so that the passes come to an end. *)
Theorem breadth_first_terminates {A} (fuel : nat) (ast : Tree A) (h : heap A) :
  height (root_node ast) < fuel →
  let root := root_node ast in
  let g := traverse fuel ast (Some "breadth_first") in
  consume h g = (<[fresh (dom h) := []]> h, level_order root, Done) ∧
  length (level_order root) = totalDescendantCount root ∧
  (∀ k, pulls (totalDescendantCount root + S k) h g =
        map Item (level_order root) ++ replicate (S k) (Stop Done)) ∧
  (∀ fuel' (cursor : TreeCursor A) q d h',
     h' !! q = Some d →
     consume h' (breadth_first_rest fuel' cursor q (length d)) =
       let '(h'', later, o) :=
         consume (<[q := flat_map children d]> h')
                 (breadth_first_rest fuel' cursor q 0) in
       (h'', d ++ later, o)) ∧
  (∀ H (d : list (Node A)),
     Forall (λ c, height c < S H) d →
     Forall (λ c, height c < H) (flat_map children d)).
Proof.
  intros Hfuel root g. subst g.
  assert (consume h (traverse fuel ast (Some "breadth_first")) =
            (<[fresh (dom h) := []]> h, level_order root, Done)) as Hall
    by by rewrite traverse_breadth_first, consume_breadth_first.
  split_and!.
  - done.
  - apply level_order_length.
  - intros k. rewrite <- level_order_length.
    by rewrite (pulls_consume _ _ _ _ _ k Hall).
  - intros fuel' cursor q d h' Hq.
    by rewrite (consume_pass _ _ _ d []) by by rewrite app_nil_r.
  - intros H d. apply height_flat_map_children.
Qed.

(** Five pulls from the breadth-first generator of the tree of the example. *)
Lemma breadth_first_terminates_witness :
  height (root_node ex_tree) < 3 ∧
  pulls 5 ∅ (traverse 3 ex_tree (Some "breadth_first")) =
    [Item ex_A; Item ex_B; Item ex_A1; Stop Done; Stop Done].
Proof.
  assert (height (root_node ex_tree) < 3) as Hfuel by (cbn; lia).
  split; [exact Hfuel|].
  exact (proj1 (proj2 (proj2 (breadth_first_terminates 3 ex_tree ∅ Hfuel))) 1).
Defined.

(** C7.  Two calls of [traverse] with the same tree and the same selector
    give two generators that do not disturb each other: placed in one store
    and pulled in any order, each gives, pull for pull, what it gives when it
    is pulled alone in a store of its own, and this is the same for both.
    Pulled alone, a generator gives the nodes of its strategy in order and
    then the end, however many pulls are made. *)
Theorem two_traversals_are_independent
    {A} (fuel : nat) (ast : Tree A) (method : option string)
    (schedule : list bool) (h : heap A) :
  let first := traverse fuel ast method in
  let second := traverse fuel ast method in
  interleave schedule h first second =
    (pulls (turns true schedule) ∅ first, pulls (turns false schedule) ∅ second) ∧
  (∀ n, pulls n ∅ first = pulls n ∅ second) ∧
  (∀ m n, method = Some m → valid_method m → height (root_node ast) < fuel →
     pulls n ∅ first =
       take n (map Item (expected_order m (root_node ast)) ++ replicate (S n) (Stop Done))).
Proof.
  intros first second. subst first second. split_and!.
  - apply (interleave_same _ _ _ _ _ _ _ _ None None).
    + apply same_run_start.
    + apply same_run_start.
    + done.
  - done.
  - intros m n -> Hvalid Hfuel.
    destruct (consume_traverse fuel ast m ∅ Hvalid Hfuel) as [Hnodes Hend].
    destruct (consume ∅ (traverse fuel ast (Some m))) as [[h' out] o] eqn:Hall.
    cbn in Hnodes, Hend. subst out o.
    by rewrite (pulls_prefix n n _ _ _ _ _ (le_n n) Hall).
Qed.

(** C8.  On a tree without branching both strategies yield the same
    sequence: the nodes of the path, from the top down; for the chain root,
    X, Y, Z this is [X, Y, Z]. *)
Theorem chain_same_under_both_strategies
    {A} (fuel : nat) (top : A) (below : list A) (h1 h2 : heap A) :
  length below < fuel →
  let ast := MkTree (chain top below) in
  let dfs := consume h1 (traverse fuel ast (Some "depth_first")) in
  let bfs := consume h2 (traverse fuel ast (Some "breadth_first")) in
  nodes_of dfs = chain_below below ∧
  nodes_of bfs = chain_below below ∧
  ending_of dfs = Done ∧
  ending_of bfs = Done ∧
  (∀ r x y z : A,
     let Z := MkNode z [] in
     let Y := MkNode y [Z] in
     let X := MkNode x [Y] in
     nodes_of (consume h1 (traverse 4 (MkTree (MkNode r [X])) (Some "depth_first")))
       = [X; Y; Z] ∧
     nodes_of (consume h2 (traverse 4 (MkTree (MkNode r [X])) (Some "breadth_first")))
       = [X; Y; Z]).
Proof.
  intros Hfuel ast dfs bfs. subst ast dfs bfs.
  rewrite traverse_depth_first, traverse_breadth_first, consume_depth_first.
  rewrite consume_breadth_first by (cbn; by rewrite chain_height).
  cbn [nodes_of ending_of fst snd tree_walk root_node].
  split_and!; [apply chain_preorder|apply chain_level_order|done|done|].
  intros r x y z.
  rewrite traverse_depth_first, traverse_breadth_first, consume_depth_first.
  rewrite consume_breadth_first by (cbn; lia). done.
Qed.

(** The chain root, X, Y, Z. *)
Lemma chain_same_under_both_strategies_witness :
  length ["X"; "Y"; "Z"] < 4 ∧
  nodes_of (consume ∅ (traverse 4 ex_chain (Some "depth_first"))) =
    chain_below ["X"; "Y"; "Z"] ∧
  nodes_of (consume ∅ (traverse 4 ex_chain (Some "breadth_first"))) =
    chain_below ["X"; "Y"; "Z"].
Proof.
  assert (length ["X"; "Y"; "Z"] < 4) as Hfuel by (cbn; lia).
  split; [exact Hfuel|].
  destruct (chain_same_under_both_strategies 4 "root" ["X"; "Y"; "Z"] ∅ ∅ Hfuel)
    as (Hd & Hb & _).
  split; [exact Hd|exact Hb].
Defined.

(** C9.  Leaving the selector out is the same as asking for [depth_first]:
    the call gives the same generator, every pull gives the same, the whole
    sequence is the pre-order one, and it ends normally, never with an
    error. *)
Theorem omitted_selector_is_depth_first {A} (fuel : nat) (ast : Tree A) (h : heap A) :
  traverse fuel ast None = traverse fuel ast (Some "depth_first") ∧
  call_traverse fuel ast None = call_traverse fuel ast (Some "depth_first") ∧
  (∀ n, pulls n h (traverse fuel ast None) =
        pulls n h (traverse fuel ast (Some "depth_first"))) ∧
  consume h (traverse fuel ast None) = (h, preorder (root_node ast), Done) ∧
  (∀ n e, ¬ In (Stop (Raised e)) (pulls n h (traverse fuel ast None))).
Proof.
  assert (consume h (traverse fuel ast None) = (h, preorder (root_node ast), Done))
    as Hall by apply consume_depth_first.
  split_and!; [done|done|done|done|].
  intros n e. rewrite (pulls_prefix n n _ _ _ _ _ (le_n n) Hall).
  intros Hin%list_elem_of_In%subseteq_take%list_elem_of_In.
  apply in_app_iff in Hin as [Hin|[Hin|Hin]].
  - apply in_map_iff in Hin as (x & Hx & _). discriminate Hx.
  - discriminate Hin.
  - apply list_elem_of_In, elem_of_replicate in Hin as [Hin _]. discriminate Hin.
Qed.

(** C10.  Neither strategy yields the root: what is yielded is exactly what
    lies strictly below the root, the position of the root is not among the
    positions met, and a root without children gives the empty sequence. *)
Theorem root_is_never_yielded
    {A} (fuel : nat) (ast : Tree A) (method : string)
    (h : heap A) (ht : heap (list nat * A)) :
  valid_method method →
  height (root_node ast) < fuel →
  let out := nodes_of (consume h (traverse fuel ast (Some method))) in
  let tagged := nodes_of (consume ht (traverse fuel (label ast) (Some method))) in
  ¬ In (root_node ast) out ∧
  (∀ x, In x out ↔ strict_descendant (root_node ast) x) ∧
  ¬ In [] (map position tagged) ∧
  (children (root_node ast) = [] → out = []).
Proof.
  intros Hvalid Hfuel out tagged. subst out tagged.
  destruct (consume_traverse fuel ast method h Hvalid Hfuel) as [-> _].
  destruct (consume_traverse fuel (label ast) method ht Hvalid) as [-> _].
  { simpl. by rewrite height_label_from. }
  assert (∀ x, In x (expected_order method (root_node ast)) ↔
               strict_descendant (root_node ast) x) as Hin.
  { intros x. rewrite <- in_preorder. split; apply Permutation_in;
      [symmetry|]; apply expected_order_perm. }
  split_and!.
  - intros Hroot%Hin. by apply strict_descendant_irrefl in Hroot.
  - exact Hin.
  - intros Hnil.
    apply (proj2 (expected_order_positions method (root_node ast))) in Hnil.
    by destruct Hnil as [Hnil _].
  - intros Hleaf. destruct (expected_order method (root_node ast)) as [|x out] eqn:Hout;
      [done|].
    assert (strict_descendant (root_node ast) x) as Hx by (apply Hin; by left).
    destruct Hx as [x Hx|c x Hc _]; rewrite Hleaf in *; by destruct_and?.
Qed.

(** A root without children. *)
Lemma root_is_never_yielded_witness :
  valid_method "depth_first" ∧ height (root_node ex_empty) < 1 ∧
  nodes_of (consume ∅ (traverse 1 ex_empty (Some "depth_first"))) = [].
Proof.
  assert (valid_method "depth_first") as Hvalid by (by left).
  assert (height (root_node ex_empty) < 1) as Hfuel by (cbn; lia).
  split_and!; [exact Hvalid|exact Hfuel|].
  exact (proj2 (proj2 (proj2
    (root_is_never_yielded 1 ex_empty "depth_first" ∅ ∅ Hvalid Hfuel))) eq_refl).
Defined.

(** ** Further properties of the walkers *)

Section further_tree_facts.
Context {A : Type}.
Implicit Types (n c x : Node A) (q d : list (Node A)).


(** The waves of a queue are the queue followed by the children of the
    waves: every node is followed, later, by its children, in the order in
    which the parents came. *)
Lemma levels_from_children H : ∀ q,
  Forall (λ c, height c < H) q →
  levels_from H q = q ++ flat_map children (levels_from H q).
Proof.
  induction H as [|H IH]; intros q Hq.
  - destruct q as [|x q]; [done|]. apply Forall_cons_1 in Hq as [? _]; lia.
  - cbn [levels_from]. f_equal. rewrite flat_map_app.
    by rewrite <- IH by by apply height_flat_map_children.
Qed.

Lemma level_order_children n :
  level_order n = children n ++ flat_map children (level_order n).
Proof.
  rewrite level_order_levels.
  apply levels_from_children, height_children_bound. done.
Qed.

Lemma right_spine_height a (leaves : list (Node A)) last :
  Forall (λ c, children c = []) leaves →
  height (MkNode a (leaves ++ [last])) = S (height last).
Proof.
  intros Hleaves. cbn [height]. rewrite map_app, list_max_app. cbn.
  assert (list_max (map (λ c, S (height c)) leaves) ≤ 1) as Hle.
  { apply list_max_le, List.Forall_forall. intros k (c & <- & Hc)%in_map_iff.
    rewrite List.Forall_forall in Hleaves. specialize (Hleaves c Hc).
    destruct c as [b cs]. simpl in Hleaves. subst cs. done. }
  lia.
Qed.

Lemma leaves_no_children (leaves : list (Node A)) :
  Forall (λ c, children c = []) leaves → flat_map children leaves = [].
Proof.
  induction 1 as [|c leaves Hc _ IH]; simpl; [done|]. by rewrite Hc, IH.
Qed.

Lemma leaves_preorder (leaves : list (Node A)) :
  Forall (λ c, children c = []) leaves →
  flat_map (λ c, c :: preorder c) leaves = leaves.
Proof.
  induction 1 as [|c leaves Hc _ IH]; simpl; [done|].
  rewrite IH, (preorder_unfold c), Hc. done.
Qed.

(** On such a tree pre-order and level order are the same sequence. *)
Lemma right_spine_orders n : right_spine n → preorder n = level_order n.
Proof.
  induction 1 as [a|a leaves last Hleaves _ IH]; [done|].
  rewrite level_order_levels, right_spine_height by done.
  cbn [preorder children levels_from].
  rewrite !flat_map_app, leaves_preorder, leaves_no_children by done.
  cbn [flat_map app]. rewrite !app_nil_r, <- app_assoc. cbn [app].
  by rewrite IH, level_order_levels.
Qed.
End further_tree_facts.

(** *** The order of the positions met *)

Lemma path_ltb_app (p a b : list nat) : path_ltb (p ++ a) (p ++ b) = path_ltb a b.
Proof.
  induction p as [|i p IH]; [done|]. cbn [app path_ltb].
  by rewrite Nat.ltb_irrefl, Nat.eqb_refl, IH.
Qed.

Lemma path_lt_below (p s : list nat) : s ≠ [] → path_lt p (p ++ s).
Proof.
  intros Hs. unfold path_lt.
  rewrite <- (app_nil_r p) at 1. rewrite path_ltb_app. by destruct s.
Qed.

Lemma path_lt_later (p : list nat) i j s s' :
  i < j → path_lt (p ++ i :: s) (p ++ j :: s').
Proof.
  intros Hij. unfold path_lt. rewrite path_ltb_app. cbn [path_ltb].
  apply Nat.ltb_lt in Hij. by rewrite Hij.
Qed.

Lemma shortlex_lt_shorter (p q : list nat) : length p < length q → shortlex_lt p q.
Proof.
  intros Hlt%Nat.ltb_lt. unfold shortlex_lt, shortlex_ltb. by rewrite Hlt.
Qed.

Lemma shortlex_lt_same_length (p q : list nat) :
  length p = length q → path_lt p q → shortlex_lt p q.
Proof.
  intros Hlen%Nat.eqb_eq Hlt. unfold shortlex_lt, shortlex_ltb.
  rewrite Hlen, Hlt. apply orb_true_r.
Qed.

Lemma StronglySorted_weaken {X} (R R' : relation X) (l : list X) :
  (∀ x y, In x l → In y l → R x y → R' x y) →
  StronglySorted R l → StronglySorted R' l.
Proof.
  intros Himpl Hl. induction Hl as [|x l Hl IH Hx]; constructor.
  - apply IH. intros y z Hy Hz. apply Himpl; by right.
  - apply List.Forall_forall. intros y Hy. apply Himpl; [by left|by right|].
    rewrite List.Forall_forall in Hx. by apply Hx.
Qed.

Section position_orders.
Context {A : Type}.
Implicit Types (n c : Node A) (p s x : list nat).

(** Pre-order meets the positions in document order. *)
Lemma sorted_forest_positions (cs : list (Node A)) :
  Forall (λ c, ∀ p,
    StronglySorted path_lt (map position (preorder (label_from p c)))) cs →
  ∀ i p,
    StronglySorted path_lt
      (map position
         (flat_map (λ m, m :: preorder m)
            (map_from (λ j c, label_from (p ++ [j]) c) i cs))).
Proof.
  induction 1 as [|c cs Hc _ IH]; intros i p.
  - simpl. constructor.
  - cbn [map_from flat_map app map]. rewrite map_app, position_label_from.
    assert (∀ x, In x (map position (flat_map (λ m, m :: preorder m)
              (map_from (λ j c, label_from (p ++ [j]) c) (S i) cs))) →
            ∃ j s, x = p ++ (S i + j) :: s) as Hlater.
    { intros x Hx. apply in_forest_positions in Hx as (j & c' & s & _ & -> & _).
      - by exists j, s.
      - apply List.Forall_forall. intros ? _. apply in_positions. }
    apply StronglySorted_cons. split; [|apply StronglySorted_app; split_and!].
    + apply List.Forall_forall. intros x [Hx|Hx]%in_app_iff.
      * apply in_positions in Hx as (s & Hs & -> & _). by apply path_lt_below.
      * apply Hlater in Hx as (j & s & ->).
        rewrite <- (app_nil_r (p ++ [i])), <- app_assoc. cbn [app].
        apply path_lt_later. lia.
    + intros x y (s & Hs & -> & _)%list_elem_of_In%in_positions
        (j & s' & ->)%list_elem_of_In%Hlater.
      rewrite <- app_assoc. cbn [app]. apply path_lt_later. lia.
    + apply Hc.
    + apply IH.
Qed.

Lemma sorted_positions n : ∀ p,
  StronglySorted path_lt (map position (preorder (label_from p n))).
Proof.
  induction n as [a cs IH] using Node_ind. intros p.
  cbn [label_from preorder]. by apply sorted_forest_positions.
Qed.

(** One level of a tagged tree: positions of one length, in document order. *)
Lemma depth_forest_positions d (cs : list (Node A)) :
  (∀ n p x, In x (map position (nodes_at_depth d (label_from p n))) →
            ∃ s, x = p ++ s ∧ length s = d) →
  (∀ n p, StronglySorted path_lt (map position (nodes_at_depth d (label_from p n)))) →
  ∀ i p,
    (∀ x, In x (map position
                  (flat_map (nodes_at_depth d)
                     (map_from (λ j c, label_from (p ++ [j]) c) i cs))) →
          ∃ j s, x = p ++ (i + j) :: s ∧ length s = d) ∧
    StronglySorted path_lt
      (map position
         (flat_map (nodes_at_depth d)
            (map_from (λ j c, label_from (p ++ [j]) c) i cs))).
Proof.
  intros Hin Hsorted. induction cs as [|c cs IH]; intros i p.
  - split; [done|constructor].
  - cbn [map_from flat_map]. rewrite map_app.
    destruct (IH (S i) p) as [IHin IHsorted]. split.
    + intros x [Hx|Hx]%in_app_iff.
      * apply Hin in Hx as (s & -> & Hs). exists 0, s.
        by rewrite Nat.add_0_r, <- app_assoc.
      * apply IHin in Hx as (j & s & -> & Hs). exists (S j), s.
        by rewrite Nat.add_succ_r.
    + apply StronglySorted_app. split_and!; [|apply Hsorted|apply IHsorted].
      intros x y (s & -> & _)%list_elem_of_In%Hin
        (j & s' & -> & _)%list_elem_of_In%IHin.
      rewrite <- app_assoc. cbn [app]. apply path_lt_later. lia.
Qed.

Lemma depth_positions d : ∀ n p,
  (∀ x, In x (map position (nodes_at_depth d (label_from p n))) →
        ∃ s, x = p ++ s ∧ length s = d) ∧
  StronglySorted path_lt (map position (nodes_at_depth d (label_from p n))).
Proof.
  induction d as [|d IH]; intros n p.
  - cbn. rewrite position_label_from. split.
    + intros x [<-|[]]. exists []. by rewrite app_nil_r.
    + repeat constructor.
  - destruct n as [a cs]. cbn [nodes_at_depth label_from children].
    destruct (depth_forest_positions d cs (λ n p, proj1 (IH n p))
                (λ n p, proj2 (IH n p)) 0 p) as [Hin Hsorted].
    split; [|done].
    intros x (j & s & -> & Hs)%Hin. exists (j :: s). split; [done|].
    cbn. by rewrite Hs.
Qed.

Lemma sorted_levels (L : Node (list nat * A)) n p len : ∀ a,
  L = label_from p n →
  (∀ x, In x (map position (flat_map (λ d, nodes_at_depth d L) (seq a len))) →
        ∃ s, x = p ++ s ∧ a ≤ length s) ∧
  StronglySorted shortlex_lt
    (map position (flat_map (λ d, nodes_at_depth d L) (seq a len))).
Proof.
  induction len as [|len IH]; intros a ->.
  - split; [done|constructor].
  - cbn [seq flat_map]. rewrite map_app.
    destruct (IH (S a) eq_refl) as [IHin IHsorted].
    destruct (depth_positions a n p) as [Hin Hsorted]. split.
    + intros x [Hx|Hx]%in_app_iff.
      * apply Hin in Hx as (s & -> & Hs). exists s. split; [done|lia].
      * apply IHin in Hx as (s & -> & Hs). exists s. split; [done|lia].
    + apply StronglySorted_app. split_and!; [| |apply IHsorted].
      * intros x y (s & -> & Hs)%list_elem_of_In%Hin
          (s' & -> & Hs')%list_elem_of_In%IHin.
        apply shortlex_lt_shorter. rewrite !length_app. lia.
      * eapply StronglySorted_weaken; [|apply Hsorted].
        intros x y (s & -> & Hs)%Hin (s' & -> & Hs')%Hin Hlt.
        apply shortlex_lt_same_length; [|done]. rewrite !length_app. lia.
Qed.

(** Level order meets the positions by depth, and in document order within
    one depth. *)
Lemma shortlex_positions n :
  StronglySorted shortlex_lt (map position (level_order (label_from [] n))).
Proof. apply (sorted_levels _ n [] _ 1 eq_refl). Qed.
End position_orders.

(** *** When the two orders coincide *)

Lemma sorted_twice {X} (R1 R2 : relation X) (l : list X) a b :
  StronglySorted R1 l → StronglySorted R2 l →
  In a l → In b l → a ≠ b →
  (R1 a b ∧ R2 a b) ∨ (R1 b a ∧ R2 b a).
Proof.
  intros H1 H2. revert H2. induction H1 as [|x l _ IH Hx1]; intros H2 Ha Hb Hab;
    [done|].
  apply StronglySorted_cons in H2 as [Hx2 H2].
  rewrite List.Forall_forall in Hx1. rewrite List.Forall_forall in Hx2.
  destruct Ha as [->|Ha], Hb as [->|Hb]; [done|left|right|]; [by auto..|].
  by apply IH.
Qed.

Lemma map_from_app {X Y} (f : nat → X → Y) (l1 l2 : list X) : ∀ i,
  map_from f i (l1 ++ l2) = map_from f i l1 ++ map_from f (i + length l1) l2.
Proof.
  induction l1 as [|x l1 IH]; intros i; cbn [app map_from length].
  - by rewrite Nat.add_0_r.
  - by rewrite IH, Nat.add_succ_r.
Qed.

Section coincidence.
Context {A : Type}.
Implicit Types (n c : Node A) (p s x : list nat).

Lemma label_leaves (leaves : list (Node A)) p : ∀ i,
  Forall (λ c, children c = []) leaves →
  Forall (λ m, children m = [])
    (map_from (λ j c, label_from (p ++ [j]) c) i leaves).
Proof.
  intros i Hleaves. revert i.
  induction Hleaves as [|c leaves Hc _ IH]; intros i; cbn; constructor; [|done].
  destruct c as [a cs]. simpl in Hc. by subst cs.
Qed.

Lemma right_spine_label n : right_spine n → ∀ p, right_spine (label_from p n).
Proof.
  induction 1 as [a|a leaves last Hleaves _ IH]; intros p; [constructor|].
  cbn [label_from]. rewrite map_from_app. cbn [map_from].
  constructor; [by apply label_leaves|apply IH].
Qed.

(** A tree in which no node with a later sibling has a child is of the
    [right_spine] kind. *)
Lemma right_spine_from_positions n :
  (∀ q i, is_Some (subtree_at n (q ++ [i; 0])) →
          is_Some (subtree_at n (q ++ [S i])) → False) →
  right_spine n.
Proof.
  induction n as [a cs IH] using Node_ind. intros Hnone.
  destruct cs as [|c0 cs0] using rev_ind; [constructor|]. clear IHcs0.
  apply Forall_app in IH as [_ [IHlast _]%Forall_cons_1].
  constructor.
  - apply List.Forall_forall. intros c Hc.
    apply list_elem_of_In, list_elem_of_lookup in Hc as [j Hj].
    destruct (children c) as [|g gs] eqn:Hg; [done|]. exfalso.
    pose proof (lookup_lt_Some _ _ _ Hj) as Hlt.
    apply (Hnone [] j); cbn [app subtree_at children].
    + by rewrite lookup_app_l, Hj, Hg by done.
    + destruct (decide (S j = length cs0)) as [->|Hne].
      * by rewrite lookup_app_r, Nat.sub_diag by lia.
      * rewrite lookup_app_l by lia.
        destruct (lookup_lt_is_Some_2 cs0 (S j)) as [c' ->]; [lia|done].
  - apply IHlast. intros q i Hchild Hsibling.
    apply (Hnone (length cs0 :: q) i); cbn [app subtree_at children];
      by rewrite lookup_app_r, Nat.sub_diag by lia.
Qed.
End coincidence.

(** *** The deque while the breadth-first walker is under way *)

Section under_way.
Context {A : Type}.
Implicit Types (h : heap A) (g : Gen A unit) (q : loc) (d : list (Node A)).

(** As long as pulls give nodes, the nodes given so far followed by the
    content of the deque are the first queue followed by the children of the
    nodes given so far. *)
Lemma advance_rest n : ∀ fuel (cursor : TreeCursor A) q k h d first given h' g' more,
  h !! q = Some d →
  given ++ d = first ++ flat_map children given →
  advance n h (breadth_first_rest fuel cursor q k) = (h', g', map Item more) →
  ∃ d', h' !! q = Some d' ∧
        (given ++ more) ++ d' = first ++ flat_map children (given ++ more).
Proof.
  induction n as [|n IH]; intros fuel cursor q k h d first given h' g' more Hq Hinv.
  { cbn. intros [= <- _ Hmore]. destruct more; [|done].
    exists d. by rewrite app_nil_r. }
  assert (∀ x d0, given ++ x :: d0 = first ++ flat_map children given →
            (given ++ [x]) ++ d0 ++ children x =
              first ++ flat_map children (given ++ [x])) as Hstep.
  { intros x d0 Hx. rewrite flat_map_app. cbn [flat_map].
    rewrite app_nil_r, (app_assoc first), <- Hx.
    by rewrite <- !app_assoc. }
  cbn [advance].
  destruct k as [|k], d as [|x d];
    [rewrite (next_rest_0 _ _ _ _ [])
    |rewrite (next_rest_0 _ _ _ _ (x :: d))
    |rewrite next_rest_S_empty
    |rewrite (next_rest_S _ _ _ _ _ x d)]; try done; cbn [length Nat.eqb].
  - destruct (advance n h (Ret tt)) as [[??]?]. intros [= _ _ Hmore].
    by destruct more.
  - destruct fuel as [|fuel].
    { cbn [traverse_tree_breadth_first next].
      destruct (advance n h (Ret tt)) as [[??]?]. intros [= _ _ Hmore].
      by destruct more. }
    rewrite (next_enter_cons _ _ _ _ x d) by done.
    destruct (advance n _ _) as [[h2 g2] rs] eqn:Hadv.
    intros [= <- <- Hmore]. destruct more as [|y more]; [done|].
    injection Hmore as <- ->.
    destruct (IH _ _ _ _ _ _ first (given ++ [x]) _ _ _
                (lookup_insert_eq _ _ _) (Hstep _ _ Hinv) Hadv) as (d' & Hd' & Hinv').
    exists d'. split; [done|].
    by rewrite <- (app_assoc given [x] more) in Hinv'.
  - destruct (advance n h (Ret tt)) as [[??]?]. intros [= _ _ Hmore].
    by destruct more.
  - destruct (advance n _ _) as [[h2 g2] rs] eqn:Hadv.
    intros [= <- <- Hmore]. destruct more as [|y more]; [done|].
    injection Hmore as <- ->.
    destruct (IH _ _ _ _ _ _ first (given ++ [x]) _ _ _
                (lookup_insert_eq _ _ _) (Hstep _ _ Hinv) Hadv) as (d' & Hd' & Hinv').
    exists d'. split; [done|].
    by rewrite <- (app_assoc given [x] more) in Hinv'.
Qed.
End under_way.

(** ** Further properties of the traversal engine *)



(** X2.  The depth-first sequence is in document order: of two nodes it
    yields, the earlier one has the smaller position (an ancestor before
    what is below it, an earlier sibling and all below it before a later
    sibling). *)
Theorem depth_first_document_order
    {A} (fuel : nat) (ast : Tree A) (ht : heap (list nat * A)) :
  StronglySorted path_lt
    (map position
       (nodes_of (consume ht (traverse fuel (label ast) (Some "depth_first"))))).
Proof.
  rewrite traverse_depth_first, consume_depth_first. apply sorted_positions.
Qed.

(** X3.  The breadth-first sequence is ordered by depth, and in document
    order within one depth: of two nodes it yields, the earlier one is
    higher in the tree, or at the same depth and earlier in the document. *)
Theorem breadth_first_depth_then_document_order
    {A} (fuel : nat) (ast : Tree A) (ht : heap (list nat * A)) :
  height (root_node ast) < fuel →
  StronglySorted shortlex_lt
    (map position
       (nodes_of (consume ht (traverse fuel (label ast) (Some "breadth_first"))))).
Proof.
  intros Hfuel. rewrite traverse_breadth_first, consume_breadth_first.
  - apply shortlex_positions.
  - cbn. by rewrite height_label_from.
Qed.

(** The positions of the example, breadth first. *)
Lemma breadth_first_depth_then_document_order_witness :
  height (root_node ex_tree) < 3 ∧
  StronglySorted shortlex_lt [[0]; [1]; [0; 0]].
Proof.
  assert (height (root_node ex_tree) < 3) as Hfuel by (cbn; lia).
  split; [exact Hfuel|].
  exact (breadth_first_depth_then_document_order 3 ex_tree ∅ Hfuel).
Defined.

(** X4.  The breadth-first sequence is the children of the root followed by
    the children of the nodes of the sequence itself, taken in the order of
    the sequence: the children of a node come after it, and the children of
    an earlier node before those of a later one. *)
Theorem breadth_first_children_follow_in_order
    {A} (fuel : nat) (ast : Tree A) (h : heap A) :
  height (root_node ast) < fuel →
  let out := nodes_of (consume h (traverse fuel ast (Some "breadth_first"))) in
  out = children (root_node ast) ++ flat_map children out.
Proof.
  intros Hfuel out. subst out.
  rewrite traverse_breadth_first, consume_breadth_first by done.
  apply level_order_children.
Qed.

(** The example: [A, B, A1] is [A, B] followed by the children of A, B, A1. *)
Lemma breadth_first_children_follow_in_order_witness :
  height (root_node ex_tree) < 3 ∧
  [ex_A; ex_B; ex_A1] = [ex_A; ex_B] ++ flat_map children [ex_A; ex_B; ex_A1].
Proof.
  assert (height (root_node ex_tree) < 3) as Hfuel by (cbn; lia).
  split; [exact Hfuel|].
  exact (breadth_first_children_follow_in_order 3 ex_tree ∅ Hfuel).
Defined.



(** X6.  While the breadth-first generator is being pulled, its deque holds
    exactly the nodes whose turn is still to come: the nodes given so far,
    followed by the content of the deque, are the children of the root
    followed by the children of the nodes given so far. *)
Theorem breadth_first_deque_under_way
    {A} (fuel : nat) (ast : Tree A) (h h' : heap A) (g' : Gen A unit)
    (n : nat) (given : list (Node A)) :
  0 < n →
  advance n h (traverse fuel ast (Some "breadth_first")) = (h', g', map Item given) →
  ∃ d, h' !! fresh (dom h) = Some d ∧
       given ++ d = children (root_node ast) ++ flat_map children given.
Proof.
  intros Hn. destruct n as [|n]; [lia|]. rewrite traverse_breadth_first.
  cbn [advance]. destruct fuel as [|fuel].
  { cbn [traverse_tree_breadth_first next].
    destruct (advance n h (Ret tt)) as [[??]?]. intros [= _ _ Hgiven].
    by destruct given. }
  rewrite next_new. unfold node, tree_walk.
  destruct (children (root_node ast)) as [|x d] eqn:Hcs.
  { rewrite next_enter_nil by by rewrite lookup_insert_eq.
    destruct (advance n _ (Ret tt)) as [[??]?]. intros [= _ _ Hgiven].
    by destruct given. }
  rewrite (next_enter_cons _ _ _ _ x d) by by rewrite lookup_insert_eq.
  destruct (advance n _ _) as [[h2 g2] rs] eqn:Hadv.
  intros [= <- <- Hgiven]. destruct given as [|y given]; [done|].
  injection Hgiven as <- ->.
  eapply (advance_rest n _ _ _ _ _ _ (x :: d) [x]) in Hadv as (d' & Hd' & Hinv).
  - exists d'. split; [exact Hd'|exact Hinv].
  - by rewrite lookup_insert_eq.
  - cbn. by rewrite app_nil_r.
Qed.

(** Two pulls on the tree of the example: A and B given, A1 waiting. *)
Lemma breadth_first_deque_under_way_witness :
  0 < 2 ∧
  ∃ h' g' d,
    advance 2 ∅ (traverse 3 ex_tree (Some "breadth_first")) =
      (h', g', map Item [ex_A; ex_B]) ∧
    h' !! fresh (dom (∅ : heap string)) = Some d ∧
    [ex_A; ex_B] ++ d =
      children (root_node ex_tree) ++ flat_map children [ex_A; ex_B].
Proof.
  assert (0 < 2) as Hn by lia.
  split; [exact Hn|].
  pose (r := advance 2 ∅ (traverse 3 ex_tree (Some "breadth_first"))).
  assert (advance 2 ∅ (traverse 3 ex_tree (Some "breadth_first")) =
            (r.1.1, r.1.2, map Item [ex_A; ex_B])) as Hadv by reflexivity.
  destruct (breadth_first_deque_under_way 3 ex_tree ∅ _ _ 2 _ Hn Hadv)
    as (d & Hd & Hinv).
  exists r.1.1, r.1.2, d. split_and!; [exact Hadv|exact Hd|exact Hinv].
Defined.

(** X7.  The two strategies yield the nodes in the same order exactly on the
    trees in which, among the children of any node, only the last one has
    children of its own (chains and roots with childless children among
    them); on such a tree the two sequences are equal, and on any other tree
    the sequences of positions differ. *)
Theorem strategies_coincide_exactly_on_right_spines
    {A} (fuel : nat) (ast : Tree A) (h1 h2 : heap A) (ht1 ht2 : heap (list nat * A)) :
  height (root_node ast) < fuel →
  (nodes_of (consume ht1 (traverse fuel (label ast) (Some "depth_first"))) =
   nodes_of (consume ht2 (traverse fuel (label ast) (Some "breadth_first")))
   ↔ right_spine (root_node ast)) ∧
  (right_spine (root_node ast) →
   nodes_of (consume h1 (traverse fuel ast (Some "depth_first"))) =
   nodes_of (consume h2 (traverse fuel ast (Some "breadth_first")))).
Proof.
  intros Hfuel.
  rewrite !traverse_depth_first, !traverse_breadth_first, !consume_depth_first.
  rewrite !consume_breadth_first by (cbn; by rewrite ?height_label_from).
  cbn [nodes_of fst snd tree_walk label root_node].
  split; [split|].
  - intros Heq. apply right_spine_from_positions. intros q i Hchild Hsibling.
    pose proof (sorted_positions (root_node ast) []) as Hdoc.
    pose proof (shortlex_positions (root_node ast)) as Hdepth.
    rewrite <- Heq in Hdepth.
    destruct (sorted_twice _ _ _ (q ++ [i; 0]) (q ++ [S i]) Hdoc Hdepth)
      as [[_ Hbad]|[Hbad _]].
    + apply in_positions. exists (q ++ [i; 0]). split_and!; [|done|done].
      by destruct q.
    + apply in_positions. exists (q ++ [S i]). split_and!; [|done|done].
      by destruct q.
    + intros Heq'%app_inv_head. discriminate Heq'.
    + unfold shortlex_lt, shortlex_ltb in Hbad. rewrite !length_app in Hbad.
      cbn [length] in Hbad.
      destruct (Nat.ltb_spec (length q + 2) (length q + 1)); [lia|].
      destruct (Nat.eqb_spec (length q + 2) (length q + 1)); [lia|done].
    + unfold path_lt in Hbad. rewrite path_ltb_app in Hbad. cbn [path_ltb] in Hbad.
      destruct (Nat.ltb_spec (S i) i); [lia|].
      destruct (Nat.eqb_spec (S i) i); [lia|done].
  - intros Hspine. by apply right_spine_orders, right_spine_label.
  - apply right_spine_orders.
Qed.

(** The chain root, X, Y, Z is of this kind. *)
Lemma strategies_coincide_exactly_on_right_spines_witness :
  height (root_node ex_chain) < 4 ∧
  right_spine (root_node ex_chain) ∧
  nodes_of (consume ∅ (traverse 4 ex_chain (Some "depth_first"))) =
  nodes_of (consume ∅ (traverse 4 ex_chain (Some "breadth_first"))).
Proof.
  assert (height (root_node ex_chain) < 4) as Hfuel by (cbn; lia).
  assert (right_spine (root_node ex_chain)) as Hspine.
  { apply (rs_last "root" []); [constructor|].
    apply (rs_last "X" []); [constructor|].
    apply (rs_last "Y" []); [constructor|]. apply rs_leaf. }
  split_and!; [exact Hfuel|exact Hspine|].
  exact (proj2 (strategies_coincide_exactly_on_right_spines
                  4 ex_chain ∅ ∅ ∅ ∅ Hfuel) Hspine).
Defined.

(** ** Properties of the provisioning functions *)

(** Case analysis on what the environment replies to the next call. *)
Ltac next_reply env :=
  match goal with
  | H : env ?made ?c = _ |- context [env ?made ?c] => rewrite H
  | |- context [env ?made (Exists ?p)] =>
      destruct (env made (Exists p)) as [[|]|?e] eqn:?
  | |- context [env ?made ?c] => destruct (env made c) as [?b|?e] eqn:?
  end.

Section provisioning_facts.
Context {Path : Type} `{!PathLib Path}.
Implicit Types (env : environment Path) (language : string).

(** X8.  When the built library is there, [get_parser] provisions nothing:
    whatever the environment does, it makes no directory, clones nothing,
    builds nothing and logs nothing; all it calls, in this order, is the
    test for the library, [Parser()], [Language(path, name)] and
    [set_language], and the parser it returns carries the language loaded
    from that library. *)
Theorem get_parser_uses_an_existing_build env language :
  let build := BUILD_DIR </> (language +:+ ".so") in
  let direct :=
    [Exists build; NewParser; NewLanguage build language; SetLanguage build language] in
  env [] (Exists build) = Gives true →
  (perform env [] (get_parser language)).1 `prefix_of` direct ∧
  (∀ parser,
     (perform env [] (get_parser language)).2 = inl parser →
     parser = MkParser (Some (build, language)) ∧
     (perform env [] (get_parser language)).1 = direct).
Proof.
  intros build direct Hthere. subst build direct. unfold get_parser.
  cbn [io_bind do_call perform app]. rewrite Hthere.
  cbn [negb io_bind do_call perform app fst snd].
  repeat (next_reply env; cbn [io_bind do_call perform app fst snd]);
    split; try (by eexists); try (by intros ? [=]); by intros ? [= <-].
Qed.

(** X9.  [build_language] never asks whether the library is already built:
    every run that returns has made the build directory, asked for the
    checkout of the grammar, cloned it from GitHub exactly when it was
    missing, and then called [build_library] once, as its last call, with
    the library path and the checkout as a one-element list; the path it
    returns is the path it built to.  When the checkout is there, no run,
    failed or not, clones anything. *)
Theorem build_language_clones_when_missing_and_always_builds env language :
  let build := BUILD_DIR </> (language +:+ ".so") in
  let repo := VENDOR_DIR </> ("tree-sitter-" +:+ language) in
  let url := "https://github.com/tree-sitter/tree-sitter-" +:+ language in
  let cloning := [LoggerInfo ("Cloning " +:+ url); CloneFrom url repo] in
  let building :=
    [LoggerInfo ("Building language '" +:+ language +:+ "'");
     BuildLibrary (path_str build) [path_str repo]] in
  let run := perform env [] (build_language language) in
  (∀ path, run.2 = inl path →
     path = build ∧
     ((env [Mkdir BUILD_DIR true] (Exists repo) = Gives true ∧
       run.1 = [Mkdir BUILD_DIR true; Exists repo] ++ building) ∨
      (env [Mkdir BUILD_DIR true] (Exists repo) = Gives false ∧
       run.1 = [Mkdir BUILD_DIR true; Exists repo] ++ cloning ++ building))) ∧
  (env [Mkdir BUILD_DIR true] (Exists repo) = Gives true →
   ∀ u p, ¬ In (CloneFrom u p) run.1).
Proof.
  intros build repo url cloning building run.
  subst build repo url cloning building run. unfold build_language.
  cbn [io_bind do_call perform app fst snd].
  split.
  - intros path.
    repeat (next_reply env; cbn [negb io_bind do_call perform app fst snd]);
      try (by intros [=]); intros [= <-]; (split; [done|]); by eauto.
  - intros Hthere u p.
    repeat (next_reply env; cbn [negb io_bind do_call perform app fst snd]);
      cbn [In]; try discriminate; by intuition discriminate.
Qed.

(** X10.  When the built library is missing, a run of [get_parser] that
    returns is made of the test that found it missing, one log line, a run
    of [build_language] that returned, and then [Parser()],
    [Language(path, name)] and [set_language]; the library it loads is the
    one [build_language] returned, which is the one that was missing, and
    its path is what [build_library] was given just before. *)
Theorem get_parser_builds_a_missing_library env language (parser : Parser Path) :
  let build := BUILD_DIR </> (language +:+ ".so") in
  let repo := VENDOR_DIR </> ("tree-sitter-" +:+ language) in
  let missing :=
    [Exists build; LoggerInfo ("No build for language '" +:+ language +:+ "'")] in
  let built := perform env missing (build_language language) in
  env [] (Exists build) = Gives false →
  (perform env [] (get_parser language)).2 = inl parser →
  parser = MkParser (Some (build, language)) ∧
  built.2 = inl build ∧
  (∃ before, built.1 = before ++ [BuildLibrary (path_str build) [path_str repo]]) ∧
  (perform env [] (get_parser language)).1 =
    built.1 ++ [NewParser; NewLanguage build language; SetLanguage build language].
Proof.
  intros build repo missing built Hmissing.
  subst build repo missing built. unfold get_parser, build_language.
  cbn [io_bind do_call perform app]. rewrite Hmissing.
  cbn [negb io_bind do_call perform app fst snd].
  repeat (next_reply env; cbn [negb io_bind do_call perform app fst snd]);
    try (by intros [=]); intros [= <-]; split_and!; try done;
    first [by eexists [_; _; _; _; _] | by eexists [_; _; _; _; _; _; _]].
Qed.
End provisioning_facts.

(** The language python, with paths as strings, where everything is there:
    the four direct calls and nothing else. *)
Lemma get_parser_uses_an_existing_build_witness :
  all_there [] (Exists (BUILD_DIR </> ("python" +:+ ".so"))) = Gives true ∧
  (perform all_there [] (get_parser "python")).1 =
    [Exists "/src/build/python.so"; NewParser;
     NewLanguage "/src/build/python.so" "python";
     SetLanguage "/src/build/python.so" "python"].
Proof.
  assert (all_there [] (Exists (BUILD_DIR </> ("python" +:+ ".so"))) = Gives true)
    as Hthere by reflexivity.
  split; [exact Hthere|].
  exact (proj2 (proj2 (get_parser_uses_an_existing_build all_there "python" Hthere)
                  _ eq_refl)).
Defined.

(** The language python, with paths as strings, where nothing is there: the
    checkout is cloned, the library built, and then loaded. *)
Lemma get_parser_builds_a_missing_library_witness :
  nothing_there [] (Exists (BUILD_DIR </> ("python" +:+ ".so"))) = Gives false ∧
  (perform nothing_there [] (get_parser "python")).2 =
    inl (MkParser (Some ("/src/build/python.so", "python"))) ∧
  (perform nothing_there [] (get_parser "python")).1 =
    [Exists "/src/build/python.so";
     LoggerInfo "No build for language 'python'";
     Mkdir "/src/build" true;
     Exists "/src/vendor/tree-sitter-python";
     LoggerInfo "Cloning https://github.com/tree-sitter/tree-sitter-python";
     CloneFrom "https://github.com/tree-sitter/tree-sitter-python"
       "/src/vendor/tree-sitter-python";
     LoggerInfo "Building language 'python'";
     BuildLibrary "/src/build/python.so" ["/src/vendor/tree-sitter-python"];
     NewParser;
     NewLanguage "/src/build/python.so" "python";
     SetLanguage "/src/build/python.so" "python"].
Proof.
  assert (nothing_there [] (Exists (BUILD_DIR </> ("python" +:+ ".so"))) = Gives false)
    as Hmissing by reflexivity.
  assert ((perform nothing_there [] (get_parser "python")).2 =
            inl (MkParser (Some ("/src/build/python.so", "python")))) as Hreturns
    by reflexivity.
  split_and!; [exact Hmissing|exact Hreturns|].
  exact (proj2 (proj2 (proj2
    (get_parser_builds_a_missing_library nothing_there "python" _ Hmissing Hreturns)))).
Defined.
